(** * gsm-voice-agent: the audio codec bridge and the per-call reply pipeline

    A shallow embedding of [src/server.js]: the two companding functions
    ([muLawToPcm], [pcmToMuLaw]), the WebSocket handlers registered in
    [wss.on('connection')], and the asynchronous pipeline
    [handleMediaMessage] with the three service calls it awaits.

    Modelling conventions.
    - A JavaScript number that holds an integer is a [Z]; the bitwise
      operators go through [int32], the 32-bit wrap-around that ECMAScript
      applies to their operands and results.
    - A [Buffer] is a [list byte].  Node's [writeInt16LE] and [readInt16LE]
      raise a [RangeError] on a value outside the signed 16-bit range or on
      an offset outside the buffer; this is kept, as a [Raise] result.
    - A string is a [string] whose characters are code units below 256.
    - The two global tables [connections] and [conversationHistory] are plain
      objects used as dictionaries; they are finite maps keyed by the call
      identifier.  Identifiers that name a member of [Object.prototype]
      (such as [constructor]) are outside this model.
    - [ws.send] and [ws.close] are recorded as calls, in order; what the
      peer receives is outside the model.
    - An [async] function is a resumption ([proc]): it runs until it awaits
      a request to an outside service, and is resumed with the answer.
      Awaiting one of the program's own [async] functions is sequencing: the
      callee runs on until it awaits a request itself.  The event loop is a
      step function over the set of suspended pipelines; between two
      requests a handler runs without anything in between. *)

From Stdlib Require Import ZArith Lia.
From Stdlib Require Import Strings.Ascii Strings.String Strings.Byte.
From stdpp Require Import gmap strings list.

(** ** JavaScript values used by the program *)

Module JS.
Local Open Scope Z_scope.

(** The exceptions that the modelled code can raise or receive. *)
Inductive error : Type :=
| RangeError            (* Buffer access or value out of range *)
| TypeError
| HttpError             (* a rejected axios request *)
| PollyError.           (* a rejected Polly request or audio stream *)

Inductive result (A : Type) : Type :=
| Ok (a : A)
| Raise (e : error).
Arguments Ok {A} a.
Arguments Raise {A} e.

Definition rbind {A B} (r : result A) (k : A -> result B) : result B :=
  match r with
  | Ok a => k a
  | Raise e => Raise e
  end.

Fixpoint rmapM {A B} (f : A -> result B) (l : list A) : result (list B) :=
  match l with
  | [] => Ok []
  | a :: l' => rbind (f a) (fun b => rbind (rmapM f l') (fun bs => Ok (b :: bs)))
  end.

(** ToInt32 *)
Definition int32 (z : Z) : Z := (z + 2 ^ 31) mod 2 ^ 32 - 2 ^ 31.

(** [~a], [a & b], [a | b], [a << n], [a >> n] *)
Definition bnot (a : Z) : Z := int32 (Z.lnot (int32 a)).
Definition band (a b : Z) : Z := int32 (Z.land (int32 a) (int32 b)).
Definition bor (a b : Z) : Z := int32 (Z.lor (int32 a) (int32 b)).
Definition shl (a n : Z) : Z := int32 (Z.shiftl (int32 a) (n mod 32)).
Definition sar (a n : Z) : Z := Z.shiftr (int32 a) (n mod 32).

(** Storing a number into a [Uint8Array] slot keeps it modulo 256. *)
Definition to_uint8 (z : Z) : byte :=
  match Byte.of_N (Z.to_N (z mod 256)) with
  | Some b => b
  | None => x00
  end.

Definition of_uint8 (b : byte) : Z := Z.of_N (Byte.to_N b).

(** A condition [if (v)] on a number. *)
Definition truthy (v : Z) : bool := negb (v =? 0).

End JS.

Notation "'let*' x ':=' e 'in' k" := (JS.rbind e (fun x => k))
  (at level 10, x name, e at level 100, k at level 200).

(** ** Audio codec bridge *)

Module Codec.
Import JS.
Local Open Scope Z_scope.

(** [buf.writeInt16LE(value, offset)], with the checks of Node 10 and
    later: the value must be a signed 16-bit integer and the two bytes must
    lie inside the buffer. *)
Definition writeInt16LE (buf : list byte) (value : Z) (offset : nat)
  : result (list byte) :=
  if (value <? -32768) || (32767 <? value) then Raise RangeError
  else if (length buf <? offset + 2)%nat then Raise RangeError
  else Ok (<[S offset := to_uint8 (Z.shiftr value 8)]>
             (<[offset := to_uint8 value]> buf)).

(** [buf.readInt16LE(offset)] *)
Definition readInt16LE (buf : list byte) (offset : nat) : result Z :=
  match buf !! offset, buf !! S offset with
  | Some first, Some last =>
      let val := of_uint8 first + of_uint8 last * 2 ^ 8 in
      Ok (bor val (band val (2 ^ 15) * 0x1fffe))
  | _, _ => Raise RangeError
  end.

(** The body of the loop of [muLawToPcm], up to the value handed to
    [writeInt16LE]. *)
Definition expand (b : byte) : Z :=
  let c := bnot (of_uint8 b) in
  let mantissa := band c 0x0F in
  let exponent := sar (band c 0x70) 4 in
  let magnitude := shl (shl mantissa 4 + 0x08) (exponent + 3) in
  let magnitude := if truthy (band c 0x80) then - magnitude else magnitude in
  magnitude.

Fixpoint muLawToPcm_loop (rest : list byte) (i : nat) (result : list byte)
  : JS.result (list byte) :=
  match rest with
  | [] => Ok result
  | b :: rest' =>
      let* result' := writeInt16LE result (expand b) (i * 2) in
      muLawToPcm_loop rest' (S i) result'
  end.

Definition muLawToPcm (muLawBuffer : list byte) : result (list byte) :=
  muLawToPcm_loop muLawBuffer 0 (replicate (length muLawBuffer * 2) x00).

(** The offsets visited by [for (i = 0; i < pcmBuffer.length; i += 4)]. *)
Definition sample_offsets (len : nat) : list nat :=
  (fun k => 4 * k)%nat <$> seq 0 ((len + 3) / 4).

(** [Math.floor(Math.log1p(magnitude / 32) / Math.LN2)], taken exactly:
    the integer part of log2 (1 + magnitude/32), that is
    log2 (32 + magnitude) - 5.  The source computes it in floating point,
    which can only differ where 32 + magnitude is a power of two. *)
Definition exponent_of (magnitude : Z) : Z := Z.log2 (32 + magnitude) - 5.

(** The body of the second loop of [pcmToMuLaw]. *)
Definition compress (x : Z) : byte :=
  let sign := band (sar x 8) 0x80 in
  let magnitude := Z.abs x in
  let magnitude := if 32635 <? magnitude then 32635 else magnitude in
  let exponent := exponent_of magnitude in
  let mantissa := band (sar magnitude (exponent + 3)) 0x0F in
  let muLaw := bnot (bor (bor sign (shl exponent 4)) mantissa) in
  to_uint8 muLaw.

Definition pcmToMuLaw (pcmBuffer : list byte) : result (list byte) :=
  let* samples := rmapM (readInt16LE pcmBuffer)
                        (sample_offsets (length pcmBuffer)) in
  Ok (compress <$> samples).

(** A single 16-bit sample as the two bytes of a PCM buffer. *)
Definition int16le (x : Z) : list byte := [to_uint8 x; to_uint8 (Z.shiftr x 8)].

Definition fits_int16 (v : Z) : bool := (-32768 <=? v) && (v <=? 32767).

(** decode(encode(x)) on one sample: the sample is laid out as a PCM
    buffer, companded, expanded, and read back. *)
Definition roundtrip (x : Z) : result Z :=
  let* muLaw := pcmToMuLaw (int16le x) in
  let* pcm := muLawToPcm muLaw in
  readInt16LE pcm 0.

End Codec.

(** ** Strings *)

Module Str.
Local Open Scope Z_scope.

(** The white space that [String.prototype.trim] strips, among the code
    units below 256: TAB, LF, VT, FF, CR, SP and NBSP. *)
Definition is_space (c : ascii) : bool :=
  let n := nat_of_ascii c in
  ((9 <=? n) && (n <=? 13) || (n =? 32) || (n =? 160))%nat.

Fixpoint trim_start (s : list ascii) : list ascii :=
  match s with
  | c :: s' => if is_space c then trim_start s' else s
  | [] => []
  end.

(** [s.trim()] *)
Definition trim (s : string) : string :=
  string_of_list_ascii
    (rev (trim_start (rev (trim_start (list_ascii_of_string s))))).

(** [!s] on a string *)
Definition is_empty (s : string) : bool := String.eqb s "".

(** [!s || s.trim().length === 0] *)
Definition blank (s : string) : bool :=
  is_empty s || (String.length (trim s) =? 0)%nat.

Definition base64_alphabet : list ascii :=
  list_ascii_of_string
    "ABCDEFGHIJKLMNOPQRSTUVWXYZabcdefghijklmnopqrstuvwxyz0123456789+/".

Definition sextet (n : Z) : ascii :=
  default "="%char (base64_alphabet !! Z.to_nat (n mod 64)).

Fixpoint base64_chars (l : list byte) : list ascii :=
  match l with
  | [] => []
  | [a] =>
      let a := JS.of_uint8 a in
      [sextet (a / 4); sextet (a mod 4 * 16); "="%char; "="%char]
  | [a; b] =>
      let a := JS.of_uint8 a in
      let b := JS.of_uint8 b in
      [sextet (a / 4); sextet (a mod 4 * 16 + b / 16);
       sextet (b mod 16 * 4); "="%char]
  | a :: b :: c :: l' =>
      let a := JS.of_uint8 a in
      let b := JS.of_uint8 b in
      let c := JS.of_uint8 c in
      sextet (a / 4) :: sextet (a mod 4 * 16 + b / 16)
        :: sextet (b mod 16 * 4 + c / 64) :: sextet c :: base64_chars l'
  end.

(** [buf.toString('base64')]: the standard alphabet, padded with [=]. *)
Definition base64 (l : list byte) : string :=
  string_of_list_ascii (base64_chars l).

End Str.

(** ** The server *)

Module Server.
Import JS Str.

(** A WebSocket object, by identity. *)
Definition socket := nat.

(** An OpenAI chat message [{ role, content }]. *)
Record chat_message := { role : string; content : string }.

(** An object handed to [ws.send(JSON.stringify(...))]: its [event] field and
    the [media.payload] field when there is one. *)
Record outbound := { event : string; media : option string }.

(** The result of [JSON.parse(data)] in the message handler, as far as the
    handler looks into it: the parse fails, or yields [null], or yields a
    value with the fields [event] and [media && media.payload]. *)
Inductive parsed : Type :=
| ParseError
| JNull
| JObject (ev : option string) (payload : option string).

(** The body of a speech:recognize response: [data.results], each with its
    optional [alternatives], each with its optional [transcript]. *)
Definition speech_data := list (option (list (option string))).

(** [data.choices[0].message.content] of a chat completion, [None] when
    the path does not lead to a string. *)
Definition chat_data := option string.

(** The three requests the pipeline awaits, indexed by what they resolve
    to.  [SpeechRecognize] keeps the payload whose bytes are posted;
    [PollySynthesize] stands for the send and the reading of the whole
    [AudioStream], resolved to its chunks. *)
Inductive call : Type -> Type :=
| SpeechRecognize (payload : string) : call speech_data
| ChatCompletions (model : string) (messages : list chat_message)
    : call chat_data
| PollySynthesize (text : string) : call (list (list byte)).

(** Everything the handlers read or write. *)
Record world := World {
  connections : gmap string socket;
  conversationHistory : gmap string (list chat_message);
  listeners : gmap socket string;
      (* the callSid captured by the handlers set with [ws.on] *)
  sent : list (socket * outbound);      (* the [ws.send] calls, in order *)
  closed : list socket                  (* the [ws.close] calls, in order *)
}.

(** The synchronous operations on the tables and the sockets. *)
Inductive op : Type -> Type :=
| ConnGet (callSid : string) : op (option socket)
| ConnSet (callSid : string) (ws : socket) : op unit
| ConnDelete (callSid : string) : op unit
| HistGet (callSid : string) : op (option (list chat_message))
| HistSet (callSid : string) (h : list chat_message) : op unit
| WsOn (ws : socket) (callSid : string) : op unit
| WsSend (ws : socket) (m : outbound) : op unit
| WsClose (ws : socket) : op unit.

Definition perform {R} (w : world) (o : op R) : world * R :=
  match o in op R return world * R with
  | ConnGet callSid => (w, connections w !! callSid)
  | ConnSet callSid ws =>
      (World (<[callSid := ws]> (connections w)) (conversationHistory w)
             (listeners w) (sent w) (closed w), tt)
  | ConnDelete callSid =>
      (World (delete callSid (connections w)) (conversationHistory w)
             (listeners w) (sent w) (closed w), tt)
  | HistGet callSid => (w, conversationHistory w !! callSid)
  | HistSet callSid h =>
      (World (connections w) (<[callSid := h]> (conversationHistory w))
             (listeners w) (sent w) (closed w), tt)
  | WsOn ws callSid =>
      (World (connections w) (conversationHistory w)
             (<[ws := callSid]> (listeners w)) (sent w) (closed w), tt)
  | WsSend ws m =>
      (World (connections w) (conversationHistory w) (listeners w)
             (sent w ++ [(ws, m)]) (closed w), tt)
  | WsClose ws =>
      (World (connections w) (conversationHistory w) (listeners w)
             (sent w) (closed w ++ [ws]), tt)
  end.

(** An [async] function body: it returns, throws, performs an operation,
    or awaits a request and goes on with its result. *)
Inductive proc (A : Type) : Type :=
| Ret (a : A)
| Throw (e : error)
| Do {R : Type} (o : op R) (k : R -> proc A)
| Await {R : Type} (c : call R) (k : result R -> proc A).
Arguments Ret {A} a.
Arguments Throw {A} e.
Arguments Do {A R} o k.
Arguments Await {A R} c k.

Fixpoint bind {A B} (p : proc A) (f : A -> proc B) : proc B :=
  match p with
  | Ret a => f a
  | Throw e => Throw e
  | Do o k => Do o (fun r => bind (k r) f)
  | Await c k => Await c (fun r => bind (k r) f)
  end.

(** [try { p } catch (err) { h err }] *)
Fixpoint try_catch {A} (p : proc A) (h : error -> proc A) : proc A :=
  match p with
  | Ret a => Ret a
  | Throw e => h e
  | Do o k => Do o (fun r => try_catch (k r) h)
  | Await c k => Await c (fun r => try_catch (k r) h)
  end.

Definition do {R} (o : op R) : proc R := Do o Ret.

(** [await] on a request: a rejection is thrown at the await. *)
Definition await {R} (c : call R) : proc R :=
  Await c (fun r => match r with Ok v => Ret v | Raise e => Throw e end).

(** A synchronous call that may throw. *)
Definition lift {A} (r : result A) : proc A :=
  match r with Ok a => Ret a | Raise e => Throw e end.

Declare Scope proc_scope.
Delimit Scope proc_scope with proc.
Notation "'let!' x ':=' p 'in' q" := (bind p (fun x => q))
  (at level 10, x name, p at level 100, q at level 200) : proc_scope.
Local Open Scope proc_scope.

(** The environment variables the handlers depend on.  [systemPrompt] and
    [model] are the values after the [||] defaults of the source. *)
Record config := {
  GOOGLE_SPEECH_API_KEY : string;
  systemPrompt : string;
  model : string
}.

Section Handlers.
Variable cfg : config.

(** [buffer] is given by the base64 payload it was decoded from. *)
Definition transcribeAudio (buffer : string) : proc string :=
  if is_empty (GOOGLE_SPEECH_API_KEY cfg) then Ret ""%string
  else
    try_catch
      (let! results := await (SpeechRecognize buffer) in
       match results with
       | Some (Some transcript :: _) :: _ => Ret transcript
       | Some (None :: _) :: _ => Ret ""%string
       | _ => Ret ""%string
       end)
      (fun err => Ret ""%string).

(** [conversationHistory[callSid].push(m)] *)
Definition history_push (callSid : string) (m : chat_message) : proc unit :=
  let! h := do (HistGet callSid) in
  match h with
  | Some turns => do (HistSet callSid (turns ++ [m]))
  | None => Throw TypeError
  end.

Definition generateLLMReply (transcript callSid : string) : proc string :=
  if blank transcript then Ret ""%string
  else
    let! h := do (HistGet callSid) in
    let! _ := (if h is None then do (HistSet callSid []) else Ret tt) in
    let! h := do (HistGet callSid) in
    let! turns := (if h is Some turns then Ret turns else Throw TypeError) in
    let messages :=
      [{| role := "system"; content := systemPrompt cfg |}]
        ++ turns ++ [{| role := "user"; content := transcript |}] in
    try_catch
      (let! response := await (ChatCompletions (model cfg) messages) in
       let! replyContent :=
         (if response is Some c then Ret (trim c) else Throw TypeError) in
       let! _ :=
         history_push callSid {| role := "user"; content := transcript |} in
       let! _ :=
         history_push callSid
           {| role := "assistant"; content := replyContent |} in
       Ret replyContent)
      (fun err => Ret ("You said: " +:+ transcript)).

Definition synthesizeSpeech (text : string) : proc (list byte) :=
  if is_empty text then Ret []
  else
    let! chunks := await (PollySynthesize text) in
    Ret (concat chunks).

(** [message] is given by [message.media && message.media.payload]. *)
Definition handleMediaMessage (callSid : string) (payload : option string)
  : proc unit :=
  match payload with
  | None => Ret tt
  | Some payload =>
      if is_empty payload then Ret tt
      else
        let! ws := do (ConnGet callSid) in
        match ws with
        | None => Ret tt
        | Some ws =>
            let! transcript := transcribeAudio payload in
            if is_empty transcript then Ret tt
            else
              let! reply := generateLLMReply transcript callSid in
              let! speechAudio := synthesizeSpeech reply in
              let! muLawAudio := lift (Codec.pcmToMuLaw speechAudio) in
              let b64 := base64 muLawAudio in
              let! _ := do (WsSend ws {| event := "clear"; media := None |}) in
              do (WsSend ws {| event := "media"; media := Some b64 |})
        end
  end.

(** [ws.on('message', async (data) => ...)] for the socket [ws] of
    [callSid]. *)
Definition on_message (callSid : string) (ws : socket) (data : parsed)
  : proc unit :=
  match data with
  | ParseError => Ret tt
  | JNull => Throw TypeError
  | JObject ev payload =>
      if bool_decide (ev = Some "media"%string)
      then handleMediaMessage callSid payload
      else if bool_decide (ev = Some "closed"%string)
      then let! _ := do (WsClose ws) in do (ConnDelete callSid)
      else Ret tt
  end.

(** [ws.on('close', () => ...)] *)
Definition on_close (callSid : string) : proc unit :=
  do (ConnDelete callSid).

(** [wss.on('connection', (ws, req) => ...)]; [callSid] is
    [params.get('callSid')]. *)
Definition on_connection (ws : socket) (callSid : option string)
  : proc unit :=
  match callSid with
  | None => do (WsClose ws)
  | Some callSid =>
      if is_empty callSid then do (WsClose ws)
      else let! _ := do (ConnSet callSid ws) in do (WsOn ws callSid)
  end.

End Handlers.

(** *** Running a handler *)

(** How a handler stops: it returned, it threw (its promise is rejected), or
    it is suspended on a request. *)
Inductive status (A : Type) : Type :=
| Finished (a : A)
| Failed (e : error)
| Suspended {R : Type} (c : call R) (k : result R -> proc A).
Arguments Finished {A} a.
Arguments Failed {A} e.
Arguments Suspended {A R} c k.

(** Run [p] up to its next await. *)
Fixpoint exec {A} (w : world) (p : proc A) : world * status A :=
  match p with
  | Ret a => (w, Finished a)
  | Throw e => (w, Failed e)
  | Do o k => let (w', r) := perform w o in exec w' (k r)
  | Await c k => (w, Suspended c k)
  end.

(** What the outside world answers to each request. *)
Definition answers := forall R, call R -> result R.

Definition respond (stt : result speech_data) (llm : result chat_data)
    (tts : result (list (list byte))) : answers :=
  fun R c =>
    match c in call R return result R with
    | SpeechRecognize _ => stt
    | ChatCompletions _ _ => llm
    | PollySynthesize _ => tts
    end.

(** A request as it appears in a log. *)
Inductive request : Type :=
| Speech (payload : string)
| Chat (model : string) (messages : list chat_message)
| Polly (text : string).

Definition request_of {R} (c : call R) : request :=
  match c with
  | SpeechRecognize payload => Speech payload
  | ChatCompletions model messages => Chat model messages
  | PollySynthesize text => Polly text
  end.

Definition is_chat (r : request) : bool :=
  match r with Chat _ _ => true | _ => false end.
Definition is_polly (r : request) : bool :=
  match r with Polly _ => true | _ => false end.

Record outcome (A : Type) := Outcome {
  final : world;
  returned : result A;
  requests : list request            (* the requests made, in order *)
}.
Arguments Outcome {A} final returned requests.
Arguments final {A} o.
Arguments returned {A} o.
Arguments requests {A} o.

(** Run [p] to its end with nothing else in between, every request being
    answered by [o]. *)
Fixpoint run {A} (o : answers) (w : world) (p : proc A) : outcome A :=
  match p with
  | Ret a => Outcome w (Ok a) []
  | Throw e => Outcome w (Raise e) []
  | Do op k => let (w', r) := perform w op in run o w' (k r)
  | Await c k =>
      let r := run o w (k (o _ c)) in
      Outcome (final r) (returned r) (request_of c :: requests r)
  end.

(** *** The event loop *)

(** A pipeline suspended on a request, with the call it works for. *)
Inductive task : Type :=
| Task (callSid : string) {R : Type} (c : call R)
       (k : result R -> proc unit).

Definition task_call (t : task) : string :=
  match t with Task callSid _ _ => callSid end.
Definition task_request (t : task) : request :=
  match t with Task _ c _ => request_of c end.

Record server := Server {
  state : world;
  pending : list task;
  unhandled : list error
      (* rejections of handler promises, which nothing awaits or catches *)
}.

Definition initial : server :=
  Server (World ∅ ∅ ∅ [] []) [] [].

(** Start or resume a handler of [callSid] and file what becomes of it. *)
Definition launch (callSid : string) (s : server) (p : proc unit) : server :=
  match exec (state s) p with
  | (w, Finished _) => Server w (pending s) (unhandled s)
  | (w, Failed e) => Server w (pending s) (unhandled s ++ [e])
  | (w, Suspended c k) =>
      Server w (pending s ++ [Task callSid c k]) (unhandled s)
  end.

(** Run a handler that is not [async] and does not await. *)
Definition call_sync (s : server) (p : proc unit) : server :=
  Server (exec (state s) p).1 (pending s) (unhandled s).

Inductive loop_event : Type :=
| Connection (ws : socket) (callSid : option string)
| Message (ws : socket) (data : parsed)
| Close (ws : socket)
| Settle (i : nat) (o : answers).      (* the i-th pending request settles *)

Section Loop.
Variable cfg : config.

Definition step (s : server) (e : loop_event) : server :=
  match e with
  | Connection ws callSid => call_sync s (on_connection ws callSid)
  | Message ws data =>
      match listeners (state s) !! ws with
      | Some callSid => launch callSid s (on_message cfg callSid ws data)
      | None => s
      end
  | Close ws =>
      match listeners (state s) !! ws with
      | Some callSid => call_sync s (on_close callSid)
      | None => s
      end
  | Settle i o =>
      match pending s !! i with
      | Some (Task callSid c k) =>
          launch callSid (Server (state s) (delete i (pending s)) (unhandled s))
                 (k (o _ c))
      | None => s
      end
  end.

Definition steps (s : server) (es : list loop_event) : server :=
  fold_left step es s.

End Loop.

(** The turns recorded for a call, none when the table has no entry. *)
Definition history (w : world) (callSid : string) : list chat_message :=
  default [] (conversationHistory w !! callSid).

(** The pending pipelines of one call. *)
Definition in_flight (s : server) (callSid : string) : list task :=
  filter (fun t => task_call t = callSid) (pending s).

(** The two objects built in [handleMediaMessage]. *)
Definition clear_event : outbound := {| event := "clear"; media := None |}.
Definition media_event (b64 : string) : outbound :=
  {| event := "media"; media := Some b64 |}.

(** A sequence of sends made of bursts, each a [clear] followed by one
    [media] on the same socket. *)
Inductive bursts : list (socket * outbound) -> Prop :=
| bursts_nil : bursts []
| bursts_cons ws b64 l :
    bursts l -> bursts ((ws, clear_event) :: (ws, media_event b64) :: l).


(** Every request of one kind gets the same answer. *)
Definition speech_answer (o : answers) (a : result speech_data) : Prop :=
  forall payload, o _ (SpeechRecognize payload) = a.
Definition chat_answer (o : answers) (a : result chat_data) : Prop :=
  forall m messages, o _ (ChatCompletions m messages) = a.
Definition polly_answer (o : answers) (a : result (list (list byte))) : Prop :=
  forall text, o _ (PollySynthesize text) = a.

(** *** Predicates for the ordering of sends *)

Definition sends_of {R} (o : op R) : list (socket * outbound) :=
  match o with
  | WsSend ws m => [(ws, m)]
  | _ => []
  end.

(** [p] never sends. *)
Fixpoint silent {A} (p : proc A) : Prop :=
  match p with
  | Ret _ | Throw _ => True
  | Do o k => sends_of o = [] /\ forall r, silent (k r)
  | Await c k => forall r, silent (k r)
  end.

(** With [acc] already sent since the last await, [p] sends whole bursts
    between any two awaits, whatever it is answered. *)
Fixpoint tidy {A} (acc : list (socket * outbound)) (p : proc A) : Prop :=
  match p with
  | Ret _ | Throw _ => bursts acc
  | Do o k => forall r, tidy (acc ++ sends_of o) (k r)
  | Await c k => bursts acc /\ forall r, tidy [] (k r)
  end.

Definition tidy_task (t : task) : Prop :=
  match t with Task _ c k => forall r, tidy [] (k r) end.

Definition orderly (s : server) : Prop :=
  bursts (sent (state s)) /\ Forall tidy_task (pending s).

End Server.

(** ** Concrete configuration, messages and answers *)

Module Scenario.
Import JS Server.

Definition env : config :=
  {| GOOGLE_SPEECH_API_KEY := "key";
     systemPrompt := "You are a voice agent.";
     model := "gpt-3.5-turbo" |}.

(** An inbound [media] message and an inbound [closed] message. *)
Definition media_in (payload : string) : parsed :=
  JObject (Some "media"%string) (Some payload).

(** Answers to one kind of request; the kinds that the settled pipeline
    does not ask for are given a rejection. *)
Definition speech_says (a : result speech_data) : answers :=
  respond a (Raise HttpError) (Raise PollyError).
Definition chat_says (a : result chat_data) : answers :=
  respond (Raise HttpError) a (Raise PollyError).
Definition polly_says (a : result (list (list byte))) : answers :=
  respond (Raise HttpError) (Raise HttpError) a.

(** The speech service recognises [t]. *)
Definition heard (t : string) : answers := speech_says (Ok [Some [Some t]]).
(** The chat service replies [t]. *)
Definition replied (t : string) : answers := chat_says (Ok (Some t)).
(** Polly returns one chunk holding two 16 kHz samples, 256 and 0. *)
Definition spoken : answers := polly_says (Ok [[x00; x01; x00; x00]]).

(** Every service is down. *)
Definition all_down : answers :=
  respond (Raise HttpError) (Raise HttpError) (Raise PollyError).

Definition user_turn (t : string) : chat_message :=
  {| role := "user"; content := t |}.
Definition system_turn : chat_message :=
  {| role := "system"; content := systemPrompt env |}.

(** One call that gets through a whole reply cycle. *)
Definition one_cycle : list loop_event :=
  [Connection 1 (Some "CA124"%string);
   Message 1 (media_in "AAAA");
   Settle 0 (heard "book a ride");
   Settle 0 (replied "Sure, let us get that scheduled.");
   Settle 0 spoken].

End Scenario.

(** ** Further definitions for the codec *)

Module CodecMore.
Import JS Codec.
Local Open Scope Z_scope.

(** A PCM buffer holding the 16-bit samples [xs], little endian. *)
Definition pcm_of (xs : list Z) : list byte := flat_map int16le xs.

(** Every second element of a list, starting with the first. *)
Fixpoint every_other {A} (l : list A) : list A :=
  match l with
  | x :: _ :: l' => x :: every_other l'
  | _ => l
  end.

(** The compressed bytes singled out by their low seven bits: 0 to 13,
    16 to 27 and 32 to 39. *)
Definition overflowing (b : byte) : bool :=
  let v := of_uint8 b mod 128 in
  (v <=? 13) || (16 <=? v) && (v <=? 27) || (32 <=? v) && (v <=? 39).

(** The compressed byte with the top bit flipped. *)
Definition flip_sign (b : byte) : byte := to_uint8 (of_uint8 b + 128).

(** The byte that [compress] builds from a sign mask, an exponent and a
    mantissa. *)
Definition code (sign e m : Z) : byte :=
  to_uint8 (bnot (bor (bor sign (shl e 4)) m)).

(** Exponent (as kept in three bits) and mantissa whose expansion does not
    fit 16 bits. *)
Definition bad (e m : Z) : bool :=
  (e mod 8 =? 5) && (8 <=? m) || (e mod 8 =? 6) && (4 <=? m)
  || (e mod 8 =? 7) && (2 <=? m).

(** The expansion of the byte built from a sign, an exponent and a
    mantissa. *)
Definition decoded (neg : bool) (e m : Z) : Z :=
  (if neg then -1 else 1) * ((16 * m + 8) * 2 ^ (e mod 8 + 3)).

End CodecMore.

(** ** Further definitions for the event loop *)

Module Effects.
Import JS Server.

(** Run from [w], and resumed from any world after each await, [p] only
    takes steps that [rel] relates. *)
Fixpoint keeps {A} (rel : world -> world -> Prop) (p : proc A) (w : world)
  : Prop :=
  match p with
  | Ret _ | Throw _ => True
  | Do o k =>
      rel w (perform w o).1 /\ keeps rel (k (perform w o).2) (perform w o).1
  | Await c k => forall r w', keeps rel (k r) w'
  end.

(** The same for what [p] does after its first await only. *)
Fixpoint keeps_later {A} (rel : world -> world -> Prop) (p : proc A)
    (w : world) : Prop :=
  match p with
  | Ret _ | Throw _ => True
  | Do o k => keeps_later rel (k (perform w o).2) (perform w o).1
  | Await c k => forall r w', keeps rel (k r) w'
  end.

Definition kept_task (rel : world -> world -> Prop) (t : task) : Prop :=
  match t with Task _ c k => forall r w', keeps rel (k r) w' end.

(** The recorded turns of every call are extended, never cut or changed. *)
Definition grows (w w' : world) : Prop :=
  forall c, history w c `prefix_of` history w' c.

(** The connection table, the listeners and the closed sockets are the
    same. *)
Definition same_sockets (w w' : world) : Prop :=
  connections w' = connections w /\ listeners w' = listeners w
  /\ closed w' = closed w.

(** Both at once. *)
Definition modest (w w' : world) : Prop := grows w w' /\ same_sockets w w'.

End Effects.

(** ** The call-setup responder *)

Module Voice.
Import JS Str.

(** The environment variables read by the [/voice] handler. *)
Record settings := {
  TWILIO_AUTH_TOKEN : string;
  BASE_URL : string;
  AWS_POLLY_VOICE : string
}.

(** [s.replace(/\/$/, '')]: one slash at the very end is removed. *)
Definition strip_slash (s : string) : string :=
  match rev (list_ascii_of_string s) with
  | "/"%char :: r => string_of_list_ascii (rev r)
  | _ => s
  end.

(** The URL that [verifyTwilioRequest] hands to the signature validator. *)
Definition urlToCheck (st : settings) (originalUrl : string) : string :=
  BASE_URL st +:+ originalUrl.

(** The URL given to [twiml.connect().stream]; a request body without
    [CallSid] is spliced in as [undefined]. *)
Definition stream_url (st : settings) (CallSid : option string) : string :=
  strip_slash (BASE_URL st) +:+ "/stream?callSid="
    +:+ default "undefined"%string CallSid.

(** What the handler answers: 403, or the TwiML with its [Say] voice and
    text and its [Stream] URL; or it throws what the validator threw. *)
Inductive reply : Type :=
| Forbidden
| TwiML (voice text url : string)
| Thrown (e : error).

(** [app.post('/voice', ...)].  [validate] stands for the signature
    validator of the twilio library applied to the body and the signature
    header, as a function of the URL to check; it is only consulted when a
    token is configured. *)
Definition voice (st : settings) (validate : string -> result bool)
    (originalUrl : string) (CallSid : option string) : reply :=
  let answer :=
    TwiML ("Polly." +:+ AWS_POLLY_VOICE st +:+ "-Neural")
          "Hello. You are speaking with the Golden State Medical Transport virtual assistant."
          (stream_url st CallSid) in
  if is_empty (TWILIO_AUTH_TOKEN st) then answer
  else
    match validate (urlToCheck st originalUrl) with
    | Ok true => answer
    | Ok false => Forbidden
    | Raise e => Thrown e
    end.

End Voice.

(** * Properties of the codec *)

Section CodecFacts.
Import JS Codec.
Local Open Scope Z_scope.

Lemma writeInt16LE_ok buf v i :
  fits_int16 v = true -> (i + 2 <= length buf)%nat ->
  writeInt16LE buf v i
  = Ok (<[S i := to_uint8 (Z.shiftr v 8)]> (<[i := to_uint8 v]> buf)).
Proof.
  unfold fits_int16, writeInt16LE. intros Hv Hi.
  apply andb_true_iff in Hv as [Hlo Hhi].
  apply Z.leb_le in Hlo, Hhi.
  replace (v <? -32768) with false by (symmetry; apply Z.ltb_ge; lia).
  replace (32767 <? v) with false by (symmetry; apply Z.ltb_ge; lia).
  replace (length buf <? i + 2)%nat with false
    by (symmetry; apply Nat.ltb_ge; lia).
  reflexivity.
Qed.

Lemma writeInt16LE_out_of_range buf v i :
  fits_int16 v = false -> writeInt16LE buf v i = Raise RangeError.
Proof.
  unfold fits_int16, writeInt16LE. intros Hv.
  apply andb_false_iff in Hv as [Hv | Hv]; apply Z.leb_gt in Hv.
  - replace (v <? -32768) with true by (symmetry; apply Z.ltb_lt; lia).
    reflexivity.
  - replace (32767 <? v) with true by (symmetry; apply Z.ltb_lt; lia).
    now rewrite orb_true_r.
Qed.

(** Two writes right after a prefix extend it by two bytes. *)
Lemma take_after_write_prefix (pre rest : list byte) (b0 b1 lo hi : byte) :
  take (length pre + 2)
       (<[S (length pre) := hi]>
          (<[length pre := lo]> (pre ++ b0 :: b1 :: rest)))
  = pre ++ [lo; hi].
Proof.
  induction pre as [|a pre IH]; simpl; [reflexivity|].
  f_equal. exact IH.
Qed.

Lemma take_after_write (buf : list byte) (i : nat) (lo hi : byte) :
  (2 * i + 2 <= length buf)%nat ->
  take (2 * S i) (<[S (i * 2) := hi]> (<[(i * 2)%nat := lo]> buf))
  = take (2 * i) buf ++ [lo; hi].
Proof.
  intros Hlen.
  assert (Hl : length (take (2 * i) buf) = (i * 2)%nat)
    by (rewrite length_take; lia).
  rewrite <- (take_drop (2 * i) buf) at 1.
  destruct (drop (2 * i) buf) as [|b0 [|b1 rest]] eqn:Hd;
    try (apply (f_equal length) in Hd; rewrite length_drop in Hd;
         simpl length in Hd; lia).
  replace (2 * S i)%nat with (i * 2 + 2)%nat by lia.
  rewrite <- Hl. apply take_after_write_prefix.
Qed.

(** The loop of [muLawToPcm], once [i] samples are written: it fails as soon
    as one expanded sample does not fit, and otherwise leaves the written
    prefix followed by the remaining samples. *)
Lemma muLawToPcm_loop_spec rest : forall i buf,
  length buf = (2 * i + 2 * length rest)%nat ->
  muLawToPcm_loop rest i buf
  = if forallb (fun b => fits_int16 (expand b)) rest
    then Ok (take (2 * i) buf ++ flat_map (fun b => int16le (expand b)) rest)
    else Raise RangeError.
Proof.
  induction rest as [|b rest IH]; intros i buf Hlen;
    cbn [muLawToPcm_loop forallb flat_map length] in *.
  - rewrite app_nil_r, take_ge by lia. reflexivity.
  - destruct (fits_int16 (expand b)) eqn:Hfit; cbn [andb].
    + rewrite writeInt16LE_ok by (auto; lia). cbn [rbind].
      rewrite IH by (rewrite !length_insert; lia).
      destruct (forallb _ rest); [|reflexivity].
      rewrite take_after_write by lia.
      rewrite <- app_assoc. reflexivity.
    + rewrite writeInt16LE_out_of_range by assumption. reflexivity.
Qed.

(** What [muLawToPcm] computes, on every input. *)
Lemma muLawToPcm_spec (muLawBuffer : list byte) :
  muLawToPcm muLawBuffer
  = if forallb (fun b => fits_int16 (expand b)) muLawBuffer
    then Ok (flat_map (fun b => int16le (expand b)) muLawBuffer)
    else Raise RangeError.
Proof.
  unfold muLawToPcm. rewrite muLawToPcm_loop_spec.
  - reflexivity.
  - rewrite length_replicate. lia.
Qed.

Lemma muLawToPcm_length muLawBuffer pcm :
  muLawToPcm muLawBuffer = Ok pcm ->
  length pcm = (2 * length muLawBuffer)%nat.
Proof.
  rewrite muLawToPcm_spec. destruct (forallb _ _); [|discriminate].
  intros [= <-]. induction muLawBuffer as [|b l IH]; [reflexivity|].
  cbn [flat_map length int16le app]. rewrite IH. lia.
Qed.

Lemma muLawToPcm_empty : muLawToPcm [] = Ok [].
Proof. reflexivity. Qed.

(** The compressed bytes on which [muLawToPcm] raises: exponent 5 with
    mantissa above 7, exponent 6 with mantissa above 3, exponent 7 with
    mantissa above 1 (after the bit inversion), 68 of the 256 bytes. *)
Lemma expand_overflow_count :
  length (List.filter (fun n => negb (fits_int16 (expand (to_uint8 (Z.of_nat n)))))
                      (seq 0 256)) = 68%nat.
Proof. vm_compute. reflexivity. Qed.

(** C1, at its failing input.  [muLawToPcm] is not total: on the one-byte
    buffer 0x00 the expanded sample is -253952, outside the signed 16-bit
    range, and [writeInt16LE] raises. *)
Theorem muLawToPcm_raises_on_zero_byte :
  expand x00 = -253952 /\ muLawToPcm [x00] = Raise RangeError.
Proof. split; vm_compute; reflexivity. Qed.

(** C6, at its failing input.  decode(encode(2048)) returns no sample: 2048
    is companded to the byte 0x9b, whose expansion 36864 is outside the
    signed 16-bit range; and the largest sample comes back negative. *)
Theorem roundtrip_fails_at_2048 :
  pcmToMuLaw (int16le 2048) = Ok [x9b]
  /\ roundtrip 2048 = Raise RangeError
  /\ roundtrip 32767 = Ok (-1920).
Proof. repeat split; vm_compute; reflexivity. Qed.

End CodecFacts.

(** * Properties of the handlers *)

(** Reduce a run, reading the tables through the known lookups. *)
Ltac run_with H :=
  repeat progress (cbn; rewrite ?H, ?lookup_insert_eq).

Section RunFacts.
Import JS Str Server.

Lemma outcome_eta {A} (r : outcome A) :
  Outcome (final r) (returned r) (requests r) = r.
Proof. destruct r; reflexivity. Qed.

(** Running a sequence is running its two parts in turn. *)
Lemma run_bind {A B} (o : answers) (p : proc A) (f : A -> proc B) :
  forall w,
  run o w (bind p f)
  = match returned (run o w p) with
    | Ok a =>
        let r' := run o (final (run o w p)) (f a) in
        Outcome (final r') (returned r')
                (requests (run o w p) ++ requests r')
    | Raise e => Outcome (final (run o w p)) (Raise e) (requests (run o w p))
    end.
Proof.
  induction p as [a|e|R op k IH|R c k IH]; intros w; cbn [bind run].
  - cbn. symmetry. apply outcome_eta.
  - reflexivity.
  - destruct (perform w op) as [w' r]. apply IH.
  - rewrite IH. cbn [final returned requests].
    destruct (run o w (k (o R c))) as [w' [a|e] q]; reflexivity.
Qed.

(** Running a [try] block: the handler takes over where the body threw. *)
Lemma run_try_catch {A} (o : answers) (p : proc A) (h : error -> proc A) :
  forall w,
  run o w (try_catch p h)
  = match returned (run o w p) with
    | Ok a => run o w p
    | Raise e =>
        let r' := run o (final (run o w p)) (h e) in
        Outcome (final r') (returned r')
                (requests (run o w p) ++ requests r')
    end.
Proof.
  induction p as [a|e|R op k IH|R c k IH]; intros w; cbn [try_catch run].
  - reflexivity.
  - cbn. symmetry. apply outcome_eta.
  - destruct (perform w op) as [w' r]. apply IH.
  - rewrite IH. cbn [final returned requests].
    destruct (run o w (k (o R c))) as [w' [a|e] q]; reflexivity.
Qed.

Lemma run_await {R} (o : answers) (c : call R) w :
  run o w (await c) = Outcome w (o R c) [request_of c].
Proof. cbn. destruct (o R c); reflexivity. Qed.

(** [transcribeAudio] touches neither the tables nor the sockets, returns
    normally, and makes at most the speech request. *)
Lemma run_transcribeAudio cfg o w buffer :
  exists t,
    run o w (transcribeAudio cfg buffer)
    = Outcome w (Ok t)
        (if is_empty (GOOGLE_SPEECH_API_KEY cfg) then []
         else [Speech buffer]).
Proof.
  unfold transcribeAudio.
  destruct (is_empty (GOOGLE_SPEECH_API_KEY cfg)); [eexists; reflexivity|].
  rewrite run_try_catch, run_bind, run_await. cbn.
  destruct (o _ (SpeechRecognize buffer)) as [results|e]; cbn;
    [|eexists; reflexivity].
  destruct results as [|[[|[t|] alts]|] results]; cbn; eexists; reflexivity.
Qed.

End RunFacts.

Section ReplyFacts.
Import JS Str Server Scenario.

Lemma history_insert w cs h :
  history (World (connections w) (<[cs := h]> (conversationHistory w))
                 (listeners w) (sent w) (closed w)) cs = h.
Proof. unfold history; cbn. now rewrite lookup_insert_eq. Qed.

(** No request is made for a blank transcript, and the chat request is made
    otherwise. *)
Lemma generateLLMReply_requests cfg o w transcript callSid :
  existsb is_chat (requests (run o w (generateLLMReply cfg transcript callSid)))
  = negb (blank transcript).
Proof.
  unfold generateLLMReply. destruct (blank transcript); [reflexivity|].
  cbn. destruct (conversationHistory w !! callSid) as [turns|] eqn:Hturns;
    run_with Hturns; reflexivity.
Qed.

(** C7.  For a transcript that is not empty, when the chat request is made
    and rejected, [generateLLMReply] returns normally, with the echo
    [You said: <transcript>]. *)
Theorem fallback_reply_on_failure cfg o w transcript callSid e :
  transcript <> ""%string ->
  chat_answer o (Raise e) ->
  existsb is_chat (requests (run o w (generateLLMReply cfg transcript callSid)))
    = true ->
  returned (run o w (generateLLMReply cfg transcript callSid))
  = Ok ("You said: " +:+ transcript).
Proof.
  intros _ Hfail. rewrite generateLLMReply_requests.
  unfold generateLLMReply. destruct (blank transcript); [discriminate|].
  intros _. cbn.
  destruct (conversationHistory w !! callSid) as [turns|] eqn:Hturns;
    run_with Hturns; rewrite Hfail; reflexivity.
Qed.

Lemma fallback_reply_on_failure_witness :
  "book a ride"%string <> ""%string
  /\ chat_answer all_down (Raise HttpError)
  /\ returned (run all_down (state initial)
                   (generateLLMReply env "book a ride" "CA124"))
     = Ok "You said: book a ride"%string.
Proof.
  split; [discriminate|]. split; [intros m messages; reflexivity|].
  apply (fallback_reply_on_failure env all_down (state initial)
           "book a ride" "CA124" HttpError);
    [discriminate | intros m messages; reflexivity | reflexivity].
Defined.

(** A response without a string at [choices[0].message.content] is handled
    like a rejection. *)
Lemma fallback_reply_on_malformed_response cfg o w transcript callSid :
  blank transcript = false ->
  chat_answer o (Ok None) ->
  returned (run o w (generateLLMReply cfg transcript callSid))
  = Ok ("You said: " +:+ transcript).
Proof.
  intros Hb Hbad. unfold generateLLMReply. rewrite Hb. cbn.
  destruct (conversationHistory w !! callSid) as [turns|] eqn:Hturns;
    run_with Hturns; rewrite Hbad; reflexivity.
Qed.



End ReplyFacts.

Section PipelineFacts.
Import JS Str Server Scenario.

(** C8.  When the transcription comes back empty, [handleMediaMessage]
    returns without a chat or Polly request and leaves the tables and the
    sockets as they were: nothing is sent. *)
Theorem empty_transcript_no_reply cfg o w callSid payload :
  returned (run o w (transcribeAudio cfg payload)) = Ok ""%string ->
  returned (run o w (handleMediaMessage cfg callSid (Some payload))) = Ok tt
  /\ final (run o w (handleMediaMessage cfg callSid (Some payload))) = w
  /\ List.filter (fun q => is_chat q || is_polly q)
       (requests (run o w (handleMediaMessage cfg callSid (Some payload))))
     = [].
Proof.
  intros Hempty. unfold handleMediaMessage.
  destruct (is_empty payload); [now cbn|].
  cbn -[transcribeAudio generateLLMReply synthesizeSpeech].
  destruct (connections w !! callSid) as [ws|]; [|now cbn].
  rewrite run_bind.
  destruct (run_transcribeAudio cfg o w payload) as [t Ht].
  rewrite Ht in Hempty |- *. cbn in Hempty. injection Hempty as ->.
  cbn. rewrite app_nil_r.
  destruct (is_empty (GOOGLE_SPEECH_API_KEY cfg)); now cbn.
Qed.

Lemma empty_transcript_no_reply_witness :
  returned (run (heard "") (state (step env initial
                                     (Connection 1 (Some "CA123"%string))))
                (transcribeAudio env "/////w==")) = Ok ""%string
  /\ sent (final (run (heard "")
                   (state (step env initial
                             (Connection 1 (Some "CA123"%string))))
                   (handleMediaMessage env "CA123" (Some "/////w=="%string))))
     = [].
Proof.
  split; [reflexivity|].
  destruct (empty_transcript_no_reply env (heard "")
              (state (step env initial (Connection 1 (Some "CA123"%string))))
              "CA123" "/////w==" eq_refl) as (_ & -> & _).
  reflexivity.
Defined.

(** In the event loop: a [media] message whose transcription is empty
    leaves no pipeline pending once the speech request has settled. *)
Lemma empty_transcript_back_to_idle :
  let s := steps env initial
             [Connection 1 (Some "CA123"%string);
              Message 1 (media_in "/////w==");
              Settle 0 (heard "")] in
  pending s = [] /\ sent (state s) = [] /\ unhandled s = [].
Proof. vm_compute. auto. Qed.

End PipelineFacts.

Section SynthesisFacts.
Import JS Str Server Scenario.

(** [generateLLMReply] always returns normally and only ever writes the
    history table; it never asks Polly. *)
Lemma run_generateLLMReply env o w transcript callSid :
  exists h reply qs,
    run o w (generateLLMReply env transcript callSid)
    = Outcome (World (connections w) h (listeners w) (sent w) (closed w))
              (Ok reply) qs
    /\ List.filter is_polly qs = [].
Proof.
  unfold generateLLMReply. destruct (blank transcript).
  { exists (conversationHistory w), ""%string, []. now destruct w. }
  cbn.
  destruct (conversationHistory w !! callSid) as [turns|] eqn:Hturns;
    run_with Hturns;
    match goal with |- context [o ?R ?c] => destruct (o R c) as [[c'|]|e] end;
    run_with Hturns; destruct w; cbn; eauto 6.
Qed.

Lemma run_synthesizeSpeech o w text :
  run o w (synthesizeSpeech text)
  = if is_empty text then Outcome w (Ok []) []
    else Outcome w (rbind (o _ (PollySynthesize text))
                          (fun chunks => Ok (concat chunks)))
                 [Polly text].
Proof.
  unfold synthesizeSpeech. destruct (is_empty text); [reflexivity|].
  cbn. destruct (o _ (PollySynthesize text)); reflexivity.
Qed.

(** Whenever the pipeline asks Polly and Polly rejects, the rejection is the
    outcome of [handleMediaMessage] itself: no handler stands in between.
    Polly was asked once and nothing was sent. *)
Lemma synthesis_failure_propagates cfg o w callSid payload e :
  polly_answer o (Raise e) ->
  existsb is_polly
    (requests (run o w (handleMediaMessage cfg callSid payload))) = true ->
  returned (run o w (handleMediaMessage cfg callSid payload)) = Raise e
  /\ sent (final (run o w (handleMediaMessage cfg callSid payload))) = sent w
  /\ length (List.filter is_polly
       (requests (run o w (handleMediaMessage cfg callSid payload)))) = 1.
Proof.
  intros Hpolly. unfold handleMediaMessage.
  destruct payload as [payload|]; [|discriminate].
  destruct (is_empty payload); [discriminate|].
  cbn -[transcribeAudio generateLLMReply synthesizeSpeech].
  destruct (connections w !! callSid) as [ws|]; [|discriminate].
  rewrite run_bind.
  destruct (run_transcribeAudio cfg o w payload) as [t ->].
  cbn -[transcribeAudio generateLLMReply synthesizeSpeech].
  destruct (is_empty t).
  { cbn. rewrite app_nil_r.
    destruct (is_empty (GOOGLE_SPEECH_API_KEY cfg)); discriminate. }
  rewrite run_bind.
  destruct (run_generateLLMReply cfg o w t callSid)
    as (h & reply & qs & -> & Hqs).
  cbn -[transcribeAudio generateLLMReply synthesizeSpeech].
  rewrite run_bind, run_synthesizeSpeech.
  destruct (is_empty reply).
  - cbn -[Codec.pcmToMuLaw base64].
    destruct (Codec.pcmToMuLaw []) as [muLaw|e']; cbn;
      rewrite !existsb_app, !app_nil_r;
      replace (existsb is_polly qs) with false
        by (symmetry; apply not_true_is_false; intros Hex;
            apply existsb_exists in Hex as (q & Hin & Hq);
            assert (Hf : In q (List.filter is_polly qs))
              by (apply filter_In; auto);
            rewrite Hqs in Hf; destruct Hf);
      destruct (is_empty (GOOGLE_SPEECH_API_KEY cfg)); discriminate.
  - rewrite Hpolly. cbn. intros _.
    rewrite !List.filter_app, Hqs. cbn.
    destruct (is_empty (GOOGLE_SPEECH_API_KEY cfg)); cbn; auto.
Qed.

(** C2, at its failing input.  A caller utterance is transcribed, answered
    by the chat service, and Polly rejects the synthesis request: the
    rejection leaves the message handler as an unhandled rejection.  (No
    [media] event is sent, and Polly is not asked again.) *)
Theorem synthesis_failure_unhandled :
  let s := steps env initial
             [Connection 1 (Some "CA124"%string);
              Message 1 (media_in "AAAA");
              Settle 0 (heard "book a ride");
              Settle 0 (replied "Sure, let us get that scheduled.");
              Settle 0 (polly_says (Raise PollyError))] in
  unhandled s = [PollyError] /\ sent (state s) = [] /\ pending s = [].
Proof. vm_compute. auto. Qed.

End SynthesisFacts.

(** * Properties of the event loop *)

Section OrderFacts.
Import JS Str Server Scenario.

Lemma bursts_app l1 l2 : bursts l1 -> bursts l2 -> bursts (l1 ++ l2).
Proof.
  induction 1 as [|ws b64 l Hl IH]; intros H2; cbn; [assumption|].
  constructor. now apply IH.
Qed.

Lemma perform_sent {R} w (o : op R) :
  sent (perform w o).1 = sent w ++ sends_of o.
Proof. destruct o; cbn; rewrite ?app_nil_r; reflexivity. Qed.

(** A tidy handler, run up to its next await, has sent whole bursts, and
    what remains of it is tidy. *)
Lemma exec_tidy {A} (p : proc A) : forall acc w,
  tidy acc p ->
  exists l,
    sent (exec w p).1 = sent w ++ l /\ bursts (acc ++ l)
    /\ match (exec w p).2 with
       | Suspended c k => forall r, tidy [] (k r)
       | _ => True
       end.
Proof.
  induction p as [a|e|R o k IH|R c k IH]; intros acc w Ht; cbn in *.
  - exists []. rewrite !app_nil_r. auto.
  - exists []. rewrite !app_nil_r. auto.
  - pose proof (perform_sent w o) as Hs.
    destruct (perform w o) as [w' r]. cbn in Hs.
    destruct (IH r (acc ++ sends_of o) w' (Ht r)) as (l & Hl & Hb & Hk).
    exists (sends_of o ++ l). rewrite Hl, Hs, <- !app_assoc in *. auto.
  - exists []. rewrite !app_nil_r. tauto.
Qed.

Lemma silent_bind {A B} (p : proc A) (f : A -> proc B) :
  silent p -> (forall a, silent (f a)) -> silent (bind p f).
Proof.
  induction p as [a|e|R o k IH|R c k IH]; cbn; intros Hp Hf; auto.
  destruct Hp as [Ho Hk]. auto.
Qed.

Lemma silent_try_catch {A} (p : proc A) (h : error -> proc A) :
  silent p -> (forall e, silent (h e)) -> silent (try_catch p h).
Proof.
  induction p as [a|e|R o k IH|R c k IH]; cbn; intros Hp Hh; auto.
  destruct Hp as [Ho Hk]. auto.
Qed.

Lemma silent_await {R} (c : call R) : silent (await c).
Proof. intros [v|e]; exact I. Qed.

Lemma silent_lift {A} (r : result A) : silent (lift r).
Proof. destruct r; exact I. Qed.

Lemma silent_transcribeAudio cfg buffer : silent (transcribeAudio cfg buffer).
Proof.
  unfold transcribeAudio. destruct (is_empty _); [exact I|].
  apply silent_try_catch; [|intros; exact I].
  apply silent_bind; [apply silent_await|].
  intros [|[[|[t|] alts]|] results]; exact I.
Qed.

Lemma silent_history_push callSid m : silent (history_push callSid m).
Proof. cbn. split; [reflexivity|]. intros [turns|]; cbn; auto. Qed.

Lemma silent_generateLLMReply cfg transcript callSid :
  silent (generateLLMReply cfg transcript callSid).
Proof.
  unfold generateLLMReply. destruct (blank transcript); [exact I|].
  apply silent_bind; [cbn; auto|]. intros h.
  apply silent_bind; [destruct h; cbn; auto|]. intros _.
  apply silent_bind; [cbn; auto|]. intros h'.
  apply silent_bind; [destruct h'; exact I|]. intros turns.
  apply silent_try_catch; [|intros; exact I].
  apply silent_bind; [apply silent_await|]. intros response.
  apply silent_bind; [destruct response; exact I|]. intros replyContent.
  apply silent_bind; [apply silent_history_push|]. intros _.
  apply silent_bind; [apply silent_history_push|]. intros _. exact I.
Qed.

Lemma silent_synthesizeSpeech text : silent (synthesizeSpeech text).
Proof.
  unfold synthesizeSpeech. destruct (is_empty text); [exact I|].
  apply silent_bind; [apply silent_await|]. intros; exact I.
Qed.

(** After a silent prefix, a handler is tidy when its continuation is. *)
Lemma tidy_bind_silent {A B} (p : proc A) (f : A -> proc B) :
  silent p -> (forall a, tidy [] (f a)) -> tidy [] (bind p f).
Proof.
  induction p as [a|e|R o k IH|R c k IH]; cbn; intros Hp Hf; auto.
  - constructor.
  - destruct Hp as [-> Hk]. cbn. auto.
  - split; [constructor|]. auto.
Qed.

Lemma silent_tidy {A} (p : proc A) : silent p -> tidy [] p.
Proof.
  induction p as [a|e|R o k IH|R c k IH]; cbn; intros Hp.
  - constructor.
  - constructor.
  - destruct Hp as [-> Hk]. cbn. auto.
  - split; [constructor|]. auto.
Qed.

Lemma tidy_handleMediaMessage cfg callSid payload :
  tidy [] (handleMediaMessage cfg callSid payload).
Proof.
  unfold handleMediaMessage.
  destruct payload as [payload|]; [|constructor].
  destruct (is_empty payload); [constructor|].
  apply tidy_bind_silent; [cbn; auto|]. intros [ws|]; [|constructor].
  apply tidy_bind_silent; [apply silent_transcribeAudio|]. intros transcript.
  destruct (is_empty transcript); [constructor|].
  apply tidy_bind_silent; [apply silent_generateLLMReply|]. intros reply.
  apply tidy_bind_silent; [apply silent_synthesizeSpeech|]. intros audio.
  apply tidy_bind_silent; [apply silent_lift|]. intros muLaw.
  cbn. intros _ _. apply (bursts_cons ws (base64 muLaw) []). constructor.
Qed.

Lemma tidy_on_message cfg callSid ws data :
  tidy [] (on_message cfg callSid ws data).
Proof.
  destruct data as [| |ev payload]; cbn -[handleMediaMessage];
    try constructor.
  destruct (bool_decide (ev = Some "media"%string));
    [apply tidy_handleMediaMessage|].
  destruct (bool_decide (ev = Some "closed"%string)); cbn; intros;
    constructor.
Qed.

Lemma tidy_on_connection ws callSid : tidy [] (on_connection ws callSid).
Proof.
  destruct callSid as [callSid|]; cbn; [|intros; constructor].
  destruct (is_empty callSid); cbn; intros; constructor.
Qed.

Lemma launch_orderly callSid s p :
  orderly s -> tidy [] p -> orderly (launch callSid s p).
Proof.
  intros [Hsent Hpending] Hp. unfold launch.
  destruct (exec_tidy p [] (state s) Hp) as (l & Hl & Hb & Hk).
  destruct (exec (state s) p) as [w [a|e|R c k]]; cbn in *;
    split; cbn; rewrite ?Hl; auto using bursts_app.
  apply Forall_app. split; [assumption|]. repeat constructor. exact Hk.
Qed.

Lemma call_sync_orderly s p :
  orderly s -> tidy [] p -> orderly (call_sync s p).
Proof.
  intros [Hsent Hpending] Hp. unfold call_sync.
  destruct (exec_tidy p [] (state s) Hp) as (l & Hl & Hb & _).
  split; cbn; [|assumption]. rewrite Hl. auto using bursts_app.
Qed.

Lemma step_orderly cfg s e : orderly s -> orderly (step cfg s e).
Proof.
  intros Hs. destruct e as [ws callSid|ws data|ws|i o]; cbn [step].
  - apply call_sync_orderly; [assumption|apply tidy_on_connection].
  - destruct (listeners (state s) !! ws); [|assumption].
    apply launch_orderly; [assumption|apply tidy_on_message].
  - destruct (listeners (state s) !! ws); [|assumption].
    apply call_sync_orderly; [assumption|]. cbn. intros; constructor.
  - destruct (pending s !! i) as [[callSid R c k]|] eqn:Hi; [|assumption].
    destruct Hs as [Hsent Hpending].
    apply launch_orderly.
    + split; cbn; [assumption|]. now apply Forall_delete.
    + apply (Forall_lookup_1 _ _ _ _ Hpending Hi).
Qed.

Lemma steps_orderly cfg es : forall s, orderly s -> orderly (steps cfg s es).
Proof.
  induction es as [|e es IH]; intros s Hs; cbn; [assumption|].
  apply IH. now apply step_orderly.
Qed.

(** C9.  Whatever arrives and however the requests are answered, what the
    server has sent is a sequence of bursts: each [media] event comes right
    after one [clear] event on the same socket, and nothing else is sent. *)
Theorem replies_are_bursts cfg es :
  bursts (sent (state (steps cfg initial es))).
Proof.
  apply (steps_orderly cfg es initial).
  split; cbn; constructor.
Qed.

End OrderFacts.

Section SessionFacts.
Import JS Str Server Scenario.

(** A whole reply cycle sends exactly one burst. *)
Lemma one_cycle_sends_one_burst :
  sent (state (steps env initial one_cycle))
  = [(1, clear_event); (1, media_event "yw==")].
Proof. vm_compute. reflexivity. Qed.






(** C5, counterexample.  Two [media] events arrive back to back on one
    call: two pipelines of that call are pending at once, each on its own
    speech request; both go on to ask the chat service while the other is
    still pending; and both replies are sent. *)
Lemma second_media_starts_second_pipeline :
  let s2 := steps env initial
              [Connection 1 (Some "CA1"%string);
               Message 1 (media_in "AAAA");
               Message 1 (media_in "BBBB")] in
  let s4 := steps env s2 [Settle 0 (heard "one"); Settle 0 (heard "two")] in
  let s8 := steps env s4 [Settle 0 (replied "first"); Settle 0 (replied "second");
                          Settle 0 spoken; Settle 0 spoken] in
  List.map task_request (in_flight s2 "CA1") = [Speech "AAAA"; Speech "BBBB"]
  /\ List.map task_request (in_flight s4 "CA1")
     = [Chat (model env) [system_turn; user_turn "one"];
        Chat (model env) [system_turn; user_turn "two"]]
  /\ sent (state s8)
     = [(1, clear_event); (1, media_event "yw==");
        (1, clear_event); (1, media_event "yw==")].
Proof. vm_compute. auto. Qed.

(** C5, as the code has it.  With a speech key configured, a [media] event
    with a payload, arriving on a socket whose call is in the connection
    table, starts a pipeline of its own, whatever is already pending: the
    pending pipelines stay, and one more is pending on its speech
    request. *)
Theorem media_always_starts_pipeline env s ws callSid sock payload :
  is_empty (GOOGLE_SPEECH_API_KEY env) = false ->
  listeners (state s) !! ws = Some callSid ->
  connections (state s) !! callSid = Some sock ->
  is_empty payload = false ->
  let s' := step env s (Message ws (JObject (Some "media"%string)
                                            (Some payload))) in
  List.map task_request (in_flight s' callSid)
  = List.map task_request (in_flight s callSid) ++ [Speech payload]
  /\ length (pending s') = S (length (pending s))
  /\ state s' = state s.
Proof.
  intros Hkey Hws Hconn Hpayload. cbn [step]. rewrite Hws.
  unfold launch, on_message, handleMediaMessage, transcribeAudio.
  rewrite Hpayload, Hkey. rewrite bool_decide_eq_true_2 by reflexivity.
  cbn. rewrite Hconn. cbn.
  unfold in_flight. cbn. rewrite filter_app, length_app. cbn.
  rewrite decide_True by reflexivity. rewrite List.map_app. cbn.
  repeat split. lia.
Qed.

Lemma media_always_starts_pipeline_witness :
  let s := steps env initial
             [Connection 1 (Some "CA1"%string); Message 1 (media_in "AAAA")] in
  is_empty (GOOGLE_SPEECH_API_KEY env) = false
  /\ listeners (state s) !! 1 = Some "CA1"%string
  /\ connections (state s) !! "CA1"%string = Some 1
  /\ length (pending s) = 1
  /\ length (pending (step env s (Message 1 (media_in "BBBB")))) = 2.
Proof.
  cbn zeta.
  set (s := steps env initial
              [Connection 1 (Some "CA1"%string); Message 1 (media_in "AAAA")]).
  assert (Hkey : is_empty (GOOGLE_SPEECH_API_KEY env) = false)
    by reflexivity.
  assert (Hws : listeners (state s) !! 1 = Some "CA1"%string)
    by (vm_compute; reflexivity).
  assert (Hconn : connections (state s) !! "CA1"%string = Some 1)
    by (vm_compute; reflexivity).
  assert (Hlen : length (pending s) = 1) by (vm_compute; reflexivity).
  repeat (split; [assumption|]).
  pose proof (media_always_starts_pipeline env s 1 "CA1" 1 "BBBB"
                Hkey Hws Hconn eq_refl) as (_ & H & _).
  rewrite Hlen in H. exact H.
Defined.

End SessionFacts.

(** * Further properties of the codec *)

From Stdlib Require Import ZifyNat.

(** Linear arithmetic with division and remainder by constants. *)
Ltac div_lia := zify; Z.to_euclidean_division_equations; lia.

Section CodecMoreFacts.
Import JS Codec CodecMore.
Local Open Scope Z_scope.

Lemma int32_small v : - 2 ^ 31 <= v < 2 ^ 31 -> int32 v = v.
Proof. intros H. unfold int32. rewrite Z.mod_small by lia. lia. Qed.

Lemma of_to_uint8 z : of_uint8 (to_uint8 z) = z mod 256.
Proof.
  unfold of_uint8, to_uint8.
  assert (Hr : 0 <= z mod 256 < 256) by (apply Z.mod_pos_bound; lia).
  destruct (Byte.of_N (Z.to_N (z mod 256))) as [b|] eqn:Hb.
  - apply Byte.to_of_N in Hb. rewrite Hb. lia.
  - apply Byte.of_N_None_iff in Hb. lia.
Qed.

Lemma land_pow2 a n :
  0 <= n -> Z.land a (2 ^ n) = if Z.testbit a n then 2 ^ n else 0.
Proof.
  intros Hn. apply Z.bits_inj'. intros m Hm.
  rewrite Z.land_spec, Z.pow2_bits_eqb by lia.
  destruct (Z.eqb_spec n m) as [->|Hne].
  - rewrite andb_true_r. destruct (Z.testbit a m) eqn:Ha.
    + now rewrite Z.pow2_bits_true.
    + now rewrite Z.bits_0.
  - rewrite andb_false_r. destruct (Z.testbit a n).
    + now rewrite Z.pow2_bits_false.
    + now rewrite Z.bits_0.
Qed.

Lemma testbit_15 v : 0 <= v < 65536 -> Z.testbit v 15 = (32768 <=? v).
Proof.
  intros Hv. rewrite Z.testbit_odd, Z.shiftr_div_pow2 by lia.
  change (2 ^ 15) with 32768.
  destruct (Z.leb_spec 32768 v).
  - replace (v / 32768) with 1 by div_lia. reflexivity.
  - replace (v / 32768) with 0 by div_lia. reflexivity.
Qed.

Lemma lor_high v : 0 <= v < 65536 -> Z.lor v (-65536) = v - 65536.
Proof.
  intros Hv. pose proof (Z.add_lor_land v (-65536)) as H.
  assert (Hl : Z.land v (-65536) = 0).
  { change (-65536) with (Z.lnot (Z.ones 16)).
    rewrite <- Z.ldiff_land, Z.ldiff_ones_r by lia.
    rewrite Z.shiftr_div_pow2 by lia. change (2 ^ 16) with 65536.
    replace (v / 65536) with 0 by div_lia. reflexivity. }
  lia.
Qed.

Lemma sign_extend v :
  0 <= v < 65536 ->
  bor v (band v (2 ^ 15) * 0x1fffe) = if 32768 <=? v then v - 65536 else v.
Proof.
  intros Hv. unfold bor, band.
  rewrite (int32_small v) by lia.
  rewrite (int32_small (2 ^ 15)) by lia.
  rewrite land_pow2, testbit_15 by lia.
  destruct (Z.leb_spec 32768 v).
  - rewrite (int32_small (2 ^ 15)) by lia.
    change (int32 (2 ^ 15 * 0x1fffe)) with (-65536).
    rewrite lor_high by lia. apply int32_small. lia.
  - change (int32 0) with 0. change (int32 (0 * 0x1fffe)) with 0.
    rewrite Z.lor_0_r. apply int32_small. lia.
Qed.

(** Reading back the two bytes of a 16-bit value gives the value. *)
Lemma readInt16LE_int16le x :
  fits_int16 x = true -> readInt16LE (int16le x) 0 = Ok x.
Proof.
  intros Hx. unfold fits_int16 in Hx.
  apply andb_true_iff in Hx as [Hlo Hhi]. apply Z.leb_le in Hlo, Hhi.
  unfold readInt16LE, int16le. cbn [lookup list_lookup].
  rewrite !of_to_uint8, Z.shiftr_div_pow2 by lia.
  change (2 ^ 8) with 256.
  assert (Hv : x mod 256 + x / 256 mod 256 * 256 = x mod 65536).
  { div_lia. }
  rewrite Hv, sign_extend by (apply Z.mod_pos_bound; lia).
  f_equal. destruct (Z.leb_spec 32768 (x mod 65536)); div_lia.
Qed.

(** What [writeInt16LE] stores at an offset, [readInt16LE] reads back at
    that offset. *)
Lemma readInt16LE_writeInt16LE buf v i :
  fits_int16 v = true -> (i + 2 <= length buf)%nat ->
  (let* buf' := writeInt16LE buf v i in readInt16LE buf' i) = Ok v.
Proof.
  intros Hv Hi. rewrite writeInt16LE_ok by assumption. cbn [rbind].
  pose proof (readInt16LE_int16le v Hv) as Hread.
  unfold readInt16LE in *. cbn [int16le lookup list_lookup] in Hread.
  rewrite list_lookup_insert_ne by lia.
  rewrite list_lookup_insert_eq by lia.
  rewrite list_lookup_insert_eq by (rewrite length_insert; lia).
  exact Hread.
Qed.

Lemma expand_fits_iff b : fits_int16 (expand b) = negb (overflowing b).
Proof. destruct b; vm_compute; reflexivity. Qed.

Lemma muLawToPcm_domain_core (muLawBuffer : list byte) :
  muLawToPcm muLawBuffer
  = if existsb overflowing muLawBuffer then Raise RangeError
    else Ok (pcm_of (expand <$> muLawBuffer)).
Proof.
  rewrite muLawToPcm_spec.
  replace (forallb (fun b => fits_int16 (expand b)) muLawBuffer)
    with (negb (existsb overflowing muLawBuffer)).
  - destruct (existsb overflowing muLawBuffer); cbn [negb]; [reflexivity|].
    f_equal. unfold pcm_of.
    induction muLawBuffer as [|b l IH]; [reflexivity|].
    cbn [flat_map fmap list_fmap]. f_equal. exact IH.
  - induction muLawBuffer as [|b l IH]; [reflexivity|].
    cbn [existsb forallb]. rewrite negb_orb, IH, expand_fits_iff.
    reflexivity.
Qed.

(** X1.  [muLawToPcm] raises exactly on the buffers that hold a byte whose
    low seven bits are in 0..13, 16..27 or 32..39; on every other buffer it
    returns the expansions of the bytes, two bytes each, in order. *)
Theorem muLawToPcm_domain (muLawBuffer : list byte) :
  muLawToPcm muLawBuffer
  = if existsb overflowing muLawBuffer then Raise RangeError
    else Ok (pcm_of (expand <$> muLawBuffer)).
Proof. exact (muLawToPcm_domain_core muLawBuffer). Qed.

(** X2.  Expanding a concatenation is expanding the two parts: no sample
    depends on another. *)
Theorem muLawToPcm_app (a b : list byte) :
  muLawToPcm (a ++ b)
  = (let* x := muLawToPcm a in let* y := muLawToPcm b in Ok (x ++ y)).
Proof.
  rewrite !muLawToPcm_spec, forallb_app, flat_map_app.
  destruct (forallb _ a); cbn; [|reflexivity].
  destruct (forallb _ b); reflexivity.
Qed.

Lemma pcm_of_lookup (xs : list Z) : forall i x,
  xs !! i = Some x ->
  pcm_of xs !! (2 * i)%nat = int16le x !! 0%nat
  /\ pcm_of xs !! S (2 * i) = int16le x !! 1%nat.
Proof.
  induction xs as [|y xs IH]; intros [|i] x Hx; try discriminate.
  - injection Hx as ->. split; reflexivity.
  - replace (2 * S i)%nat with (S (S (2 * i))) by lia.
    exact (IH i x Hx).
Qed.

Lemma pcm_of_length xs : length (pcm_of xs) = (2 * length xs)%nat.
Proof.
  induction xs as [|x xs IH]; [reflexivity|].
  change (pcm_of (x :: xs)) with (int16le x ++ pcm_of xs).
  rewrite length_app, IH. cbn [int16le length]. lia.
Qed.

(** Reading sample [i] of a buffer laid out from 16-bit values. *)
Lemma readInt16LE_pcm_of xs i x :
  xs !! i = Some x -> fits_int16 x = true ->
  readInt16LE (pcm_of xs) (2 * i) = Ok x.
Proof.
  intros Hi Hx. destruct (pcm_of_lookup xs i x Hi) as [H0 H1].
  pose proof (readInt16LE_int16le x Hx) as Hread.
  unfold readInt16LE in *. rewrite H0, H1. exact Hread.
Qed.

(** X3.  When [muLawToPcm] returns, its result has two bytes per input
    byte, and the 16-bit sample read at position [i] is the expansion of
    input byte [i]. *)
Theorem muLawToPcm_samples muLawBuffer pcm :
  muLawToPcm muLawBuffer = Ok pcm ->
  length pcm = (2 * length muLawBuffer)%nat
  /\ forall i b, muLawBuffer !! i = Some b ->
       readInt16LE pcm (2 * i) = Ok (expand b).
Proof.
  intros Hok. split; [now apply muLawToPcm_length|].
  rewrite muLawToPcm_domain_core in Hok.
  destruct (existsb overflowing muLawBuffer) eqn:Hex; [discriminate|].
  injection Hok as <-. intros i b Hb.
  apply readInt16LE_pcm_of.
  - rewrite list_lookup_fmap, Hb. reflexivity.
  - rewrite expand_fits_iff.
    destruct (overflowing b) eqn:Hov; [|reflexivity].
    assert (existsb overflowing muLawBuffer = true); [|congruence].
    apply existsb_exists. exists b. split; [|assumption].
    apply list_elem_of_In. eapply list_elem_of_lookup_2. exact Hb.
Qed.

Lemma muLawToPcm_samples_witness :
  length [x40; x00; xc0; xff] = 4%nat
  /\ readInt16LE [x40; x00; xc0; xff] 2 = Ok (expand x7f).
Proof.
  destruct (muLawToPcm_samples [xff; x7f] [x40; x00; xc0; xff] eq_refl)
    as [Hlen Hread].
  split; [reflexivity|]. exact (Hread 1%nat x7f eq_refl).
Defined.

(** X4.  No compressed byte expands to zero: every expansion is a multiple
    of 64 of absolute value at least 64, and flipping the top bit of the
    byte negates it. *)
Theorem expand_symmetric_nonzero (b : byte) :
  64 <= Z.abs (expand b)
  /\ expand b mod 64 = 0
  /\ expand (flip_sign b) = - expand b.
Proof. destruct b; vm_compute; intuition discriminate. Qed.


Lemma readInt16LE_in_bounds buf off :
  (S off < length buf)%nat -> exists v, readInt16LE buf off = Ok v.
Proof.
  intros H. unfold readInt16LE.
  destruct (lookup_lt_is_Some_2 buf off) as [lo ->]; [lia|].
  destruct (lookup_lt_is_Some_2 buf (S off)) as [hi ->]; [lia|].
  eauto.
Qed.

Lemma readInt16LE_out_of_bounds buf off :
  (length buf <= S off)%nat -> readInt16LE buf off = Raise RangeError.
Proof.
  intros H. unfold readInt16LE.
  rewrite (lookup_ge_None_2 buf (S off)) by lia.
  destruct (buf !! off); reflexivity.
Qed.

Lemma rmapM_all_ok {A B} (f : A -> result B) (l : list A) :
  (forall x, In x l -> exists v, f x = Ok v) ->
  exists vs, rmapM f l = Ok vs /\ length vs = length l.
Proof.
  induction l as [|a l IH]; intros H; cbn [rmapM].
  - exists []. auto.
  - destruct (H a) as [v ->]; [now left|].
    destruct IH as (vs & -> & Hlen); [intros x Hx; apply H; now right|].
    exists (v :: vs). cbn. auto.
Qed.

Lemma rmapM_raises {A B} (f : A -> result B) (l : list A) e :
  (forall x e', f x = Raise e' -> e' = e) ->
  (exists x, In x l /\ f x = Raise e) ->
  rmapM f l = Raise e.
Proof.
  intros Honly (x & Hin & Hx).
  induction l as [|a l IH]; [destruct Hin|]. cbn [rmapM].
  destruct (f a) as [v|e'] eqn:Ha; cbn [rbind].
  - destruct Hin as [->|Hin]; [congruence|]. now rewrite IH.
  - f_equal. now apply (Honly a).
Qed.

Lemma in_sample_offsets off len :
  In off (sample_offsets len)
  <-> exists k, off = (4 * k)%nat /\ (k < (len + 3) / 4)%nat.
Proof.
  unfold sample_offsets. rewrite <- list_elem_of_In, list_elem_of_fmap.
  split; intros (k & -> & Hk); exists k; split; try reflexivity.
  - apply list_elem_of_In, in_seq in Hk. lia.
  - apply list_elem_of_In, in_seq. lia.
Qed.

Lemma pcmToMuLaw_length_core (pcmBuffer : list byte) :
  if (length pcmBuffer mod 4 =? 1)%nat
  then pcmToMuLaw pcmBuffer = Raise RangeError
  else exists muLaw,
         pcmToMuLaw pcmBuffer = Ok muLaw
         /\ length muLaw = ((length pcmBuffer + 3) / 4)%nat.
Proof.
  unfold pcmToMuLaw.
  destruct (Nat.eqb_spec (length pcmBuffer mod 4) 1) as [Hmod|Hmod].
  - rewrite (rmapM_raises (readInt16LE pcmBuffer) _ RangeError);
      [reflexivity| |].
    + intros off e' He'. unfold readInt16LE in He'.
      destruct (pcmBuffer !! off), (pcmBuffer !! S off); congruence.
    + exists (4 * (length pcmBuffer / 4))%nat. split.
      * apply in_sample_offsets. eexists. split; [reflexivity|]. div_lia.
      * apply readInt16LE_out_of_bounds. div_lia.
  - destruct (rmapM_all_ok (readInt16LE pcmBuffer)
                (sample_offsets (length pcmBuffer))) as (vs & -> & Hlen).
    + intros off (k & -> & Hk)%in_sample_offsets.
      apply readInt16LE_in_bounds. div_lia.
    + exists (compress <$> vs). split; [reflexivity|].
      rewrite length_fmap, Hlen. unfold sample_offsets.
      now rewrite length_fmap, length_seq.
Qed.

(** X5.  [pcmToMuLaw] raises exactly when the length of the buffer is 1
    modulo 4, the last read then running over the end; otherwise it returns
    one byte for every four bytes of input, rounded up. *)
Theorem pcmToMuLaw_length (pcmBuffer : list byte) :
  if (length pcmBuffer mod 4 =? 1)%nat
  then pcmToMuLaw pcmBuffer = Raise RangeError
  else exists muLaw,
         pcmToMuLaw pcmBuffer = Ok muLaw
         /\ length muLaw = ((length pcmBuffer + 3) / 4)%nat.
Proof. exact (pcmToMuLaw_length_core pcmBuffer). Qed.


Lemma rmapM_Forall2 {A B} (f : A -> result B) (l : list A) : forall vs,
  rmapM f l = Ok vs -> Forall2 (fun x v => f x = Ok v) l vs.
Proof.
  induction l as [|a l IH]; intros vs; cbn [rmapM].
  - intros [= <-]. constructor.
  - destruct (f a) as [v|e] eqn:Ha; [|discriminate]. cbn [rbind].
    destruct (rmapM f l) as [vs'|e]; [|discriminate]. cbn [rbind].
    intros [= <-]. constructor; auto.
Qed.

Lemma pcmToMuLaw_decimates_core pcmBuffer muLaw k :
  pcmToMuLaw pcmBuffer = Ok muLaw ->
  (k < length muLaw)%nat ->
  exists v, readInt16LE pcmBuffer (4 * k) = Ok v
            /\ muLaw !! k = Some (compress v).
Proof.
  unfold pcmToMuLaw. intros Hok Hk.
  destruct (rmapM _ _) as [vs|e] eqn:Hvs; [|discriminate].
  injection Hok as <-. rewrite length_fmap in Hk.
  apply rmapM_Forall2 in Hvs.
  destruct (lookup_lt_is_Some_2 vs k Hk) as [v Hv].
  destruct (Forall2_lookup_r _ _ _ _ _ Hvs Hv) as (off & Hoff & Hread).
  unfold sample_offsets in Hoff.
  rewrite list_lookup_fmap in Hoff.
  destruct (seq 0 _ !! k) as [k'|] eqn:Hseq; [|discriminate].
  apply lookup_seq in Hseq as [-> _]. injection Hoff as <-.
  exists v. split; [exact Hread|].
  now rewrite list_lookup_fmap, Hv.
Qed.

(** X6.  Byte [k] of the result of [pcmToMuLaw] is the companding of the
    16-bit sample read at byte offset [4k]: of every two samples of the
    input, the second one is skipped. *)
Theorem pcmToMuLaw_decimates pcmBuffer muLaw k :
  pcmToMuLaw pcmBuffer = Ok muLaw ->
  (k < length muLaw)%nat ->
  exists v, readInt16LE pcmBuffer (4 * k) = Ok v
            /\ muLaw !! k = Some (compress v).
Proof. exact (pcmToMuLaw_decimates_core pcmBuffer muLaw k). Qed.

Lemma pcmToMuLaw_decimates_witness :
  exists v, readInt16LE [x00; x01; xff; x7f; x02; x00] 4 = Ok v
            /\ [xcb; xff] !! 1%nat = Some (compress v).
Proof.
  apply (pcmToMuLaw_decimates [x00; x01; xff; x7f; x02; x00] [xcb; xff] 1);
    [reflexivity | cbn; lia].
Defined.

Lemma every_other_lookup {A} (k : nat) : forall l : list A,
  every_other l !! k = l !! (2 * k)%nat.
Proof.
  induction k as [|k IH]; intros [|x [|y l]]; try reflexivity.
  replace (2 * S k)%nat with (S (S (2 * k))) by lia.
  cbn [every_other lookup list_lookup]. apply IH.
Qed.

Lemma every_other_length {A} (l : list A) :
  length (every_other l) = ((length l + 1) / 2)%nat.
Proof.
  assert (H : forall n (l : list A), (length l <= n)%nat ->
              length (every_other l) = ((length l + 1) / 2)%nat).
  { intros n. induction n as [|n IH]; intros [|x [|y l']] Hl;
      cbn [length every_other] in *; try reflexivity; try lia.
    destruct n; [lia|].
    assert (IH' : length (every_other l') = ((length l' + 1) / 2)%nat).
    { destruct (Nat.le_gt_cases (length l') n) as [Hle|Hgt];
        [apply IH; lia | lia]. }
    rewrite IH'. div_lia. }
  now apply (H (length l)).
Qed.

Lemma pcmToMuLaw_pcm_of_core (xs : list Z) :
  Forall (fun x => fits_int16 x = true) xs ->
  pcmToMuLaw (pcm_of xs) = Ok (compress <$> every_other xs).
Proof.
  intros Hxs.
  pose proof (pcmToMuLaw_length_core (pcm_of xs)) as Hlen.
  rewrite pcm_of_length in Hlen.
  destruct (Nat.eqb_spec ((2 * length xs) mod 4) 1) as [Hodd|_];
    [exfalso; div_lia|].
  destruct Hlen as (muLaw & Hok & Hlen). rewrite Hok. f_equal.
  apply list_eq. intros k.
  destruct (Nat.lt_ge_cases k (length muLaw)) as [Hk|Hk].
  - destruct (pcmToMuLaw_decimates_core _ _ k Hok Hk) as (v & Hread & ->).
    rewrite list_lookup_fmap, every_other_lookup.
    destruct (lookup_lt_is_Some_2 xs (2 * k)) as [x Hx]; [div_lia|].
    rewrite Hx. cbn. f_equal. f_equal.
    rewrite Forall_forall in Hxs.
    assert (Hfit : fits_int16 x = true).
    { apply Hxs. eapply list_elem_of_lookup_2. exact Hx. }
    pose proof (readInt16LE_pcm_of xs (2 * k) x Hx Hfit) as Hread'.
    replace (2 * (2 * k))%nat with (4 * k)%nat in Hread' by lia.
    congruence.
  - rewrite (lookup_ge_None_2 muLaw) by lia.
    symmetry. apply lookup_ge_None_2.
    rewrite length_fmap, every_other_length. div_lia.
Qed.

(** X7.  On a buffer laid out from 16-bit samples, [pcmToMuLaw] returns the
    companding of every second sample, starting with the first. *)
Theorem pcmToMuLaw_pcm_of (xs : list Z) :
  Forall (fun x => fits_int16 x = true) xs ->
  pcmToMuLaw (pcm_of xs) = Ok (compress <$> every_other xs).
Proof. exact (pcmToMuLaw_pcm_of_core xs). Qed.

Lemma pcmToMuLaw_pcm_of_witness :
  pcmToMuLaw (pcm_of [256; 32767; 0]) = Ok [compress 256; compress 0].
Proof.
  apply (pcmToMuLaw_pcm_of [256; 32767; 0]).
  repeat constructor.
Defined.

(** decode(encode(x)) is the expansion of the byte that [x] is companded
    to. *)
Lemma roundtrip_by_byte x :
  fits_int16 x = true ->
  roundtrip x = if overflowing (compress x) then Raise RangeError
                else Ok (expand (compress x)).
Proof.
  intros Hx. unfold roundtrip.
  change (int16le x) with (pcm_of [x]).
  rewrite pcmToMuLaw_pcm_of_core by (repeat constructor; assumption).
  cbn [every_other fmap list_fmap rbind].
  rewrite muLawToPcm_domain_core. cbn [existsb]. rewrite orb_false_r.
  destruct (overflowing (compress x)) eqn:Hov; [reflexivity|].
  cbn [rbind fmap list_fmap].
  apply (readInt16LE_pcm_of [expand (compress x)] 0 _ eq_refl).
  now rewrite expand_fits_iff, Hov.
Qed.


(** What every byte built by [compress] expands to. *)
Lemma code_table (neg : bool) e m :
  0 <= e <= 9 -> 0 <= m <= 15 ->
  overflowing (code (if neg then 128 else 0) e m) = bad e m
  /\ expand (code (if neg then 128 else 0) e m)
     = decoded (neg || (8 <=? e)) e m.
Proof.
  intros He Hm.
  assert (He' : e = 0 \/ e = 1 \/ e = 2 \/ e = 3 \/ e = 4 \/ e = 5 \/ e = 6
                \/ e = 7 \/ e = 8 \/ e = 9) by lia.
  assert (Hm' : m = 0 \/ m = 1 \/ m = 2 \/ m = 3 \/ m = 4 \/ m = 5 \/ m = 6
                \/ m = 7 \/ m = 8 \/ m = 9 \/ m = 10 \/ m = 11 \/ m = 12
                \/ m = 13 \/ m = 14 \/ m = 15) by lia.
  clear He Hm. destruct neg;
  repeat (destruct He' as [->|He'] || subst e);
  repeat (destruct Hm' as [->|Hm'] || subst m);
  split; vm_compute; reflexivity.
Qed.

Lemma sign_bit x :
  fits_int16 x = true -> band (sar x 8) 0x80 = if x <? 0 then 128 else 0.
Proof.
  intros Hx. unfold fits_int16 in Hx.
  apply andb_true_iff in Hx as [Hlo Hhi]. apply Z.leb_le in Hlo, Hhi.
  unfold band, sar. rewrite (int32_small x) by lia.
  change (8 mod 32) with 8. rewrite Z.shiftr_div_pow2 by lia.
  change (2 ^ 8) with 256. change (int32 128) with 128.
  assert (Hh : -128 <= x / 256 <= 127) by div_lia.
  rewrite (int32_small (x / 256)) by lia.
  change 128 with (2 ^ 7) at 1. rewrite land_pow2 by lia.
  rewrite Z.testbit_odd, Z.shiftr_div_pow2 by lia. change (2 ^ 7) with 128.
  destruct (Z.ltb_spec x 0).
  - replace (x / 256 / 128) with (-1) by div_lia. reflexivity.
  - replace (x / 256 / 128) with 0 by div_lia. reflexivity.
Qed.

Lemma exponent_bounds mag :
  0 <= mag <= 32635 ->
  0 <= exponent_of mag <= 9
  /\ 2 ^ (exponent_of mag + 5) <= 32 + mag < 2 ^ (exponent_of mag + 6).
Proof.
  intros Hmag. unfold exponent_of.
  pose proof (Z.log2_le_mono 32 (32 + mag) ltac:(lia)) as H1.
  pose proof (Z.log2_le_mono (32 + mag) 32667 ltac:(lia)) as H2.
  change (Z.log2 32) with 5 in H1. change (Z.log2 32667) with 14 in H2.
  pose proof (Z.log2_spec (32 + mag) ltac:(lia)) as H3.
  replace (Z.log2 (32 + mag) - 5 + 5) with (Z.log2 (32 + mag)) by lia.
  replace (Z.log2 (32 + mag) - 5 + 6) with (Z.succ (Z.log2 (32 + mag))) by lia.
  split; [lia|exact H3].
Qed.

Lemma mantissa_bits mag e :
  0 <= mag <= 32635 -> 0 <= e <= 9 ->
  band (sar mag (e + 3)) 0x0F = mag / 2 ^ (e + 3) mod 16.
Proof.
  intros Hmag He. unfold band, sar.
  rewrite (int32_small mag) by lia.
  rewrite (Z.mod_small (e + 3)) by lia.
  rewrite Z.shiftr_div_pow2 by lia.
  assert (Hp : 0 < 2 ^ (e + 3)) by (apply Z.pow_pos_nonneg; lia).
  assert (Hq : 0 <= mag / 2 ^ (e + 3) <= mag).
  { split; [apply Z.div_pos; lia|].
    apply Z.div_le_upper_bound; [lia|]. nia. }
  rewrite (int32_small (mag / 2 ^ (e + 3))) by lia.
  change (int32 0x0F) with (Z.ones 4). rewrite Z.land_ones by lia.
  change (2 ^ 4) with 16.
  apply int32_small. pose proof (Z.mod_pos_bound (mag / 2 ^ (e + 3)) 16). lia.
Qed.

Lemma compress_code x :
  fits_int16 x = true ->
  let mag := Z.min (Z.abs x) 32635 in
  let e := exponent_of mag in
  let m := mag / 2 ^ (e + 3) mod 16 in
  compress x = code (if x <? 0 then 128 else 0) e m.
Proof.
  intros Hx mag e m. unfold compress, code.
  rewrite sign_bit by assumption.
  replace (if 32635 <? Z.abs x then 32635 else Z.abs x) with mag
    by (unfold mag; destruct (Z.ltb_spec 32635 (Z.abs x)); lia).
  assert (Hmag : 0 <= mag <= 32635) by (unfold mag; lia).
  destruct (exponent_bounds mag Hmag) as [He _]. fold e in He.
  fold e. rewrite mantissa_bits by assumption. reflexivity.
Qed.

(** decode(encode(x)) from the exponent and the mantissa of [x]. *)
Lemma roundtrip_formula x :
  fits_int16 x = true ->
  let mag := Z.min (Z.abs x) 32635 in
  let e := exponent_of mag in
  let m := mag / 2 ^ (e + 3) mod 16 in
  roundtrip x = if bad e m then Raise RangeError
                else Ok (decoded ((x <? 0) || (8 <=? e)) e m).
Proof.
  intros Hx mag e m. rewrite roundtrip_by_byte by assumption.
  rewrite compress_code by assumption. fold mag e m.
  assert (Hmag : 0 <= mag <= 32635) by (unfold mag; lia).
  destruct (exponent_bounds mag Hmag) as [He _]. fold e in He.
  assert (Hm : 0 <= m <= 15)
    by (pose proof (Z.mod_pos_bound (mag / 2 ^ (e + 3)) 16); unfold m; lia).
  destruct (code_table (x <? 0) e m He Hm) as [-> ->]. reflexivity.
Qed.


(** Evaluate the closed powers, sums and remainders left by a case split
    on the exponent. *)
Ltac is_numeral n :=
  match n with Z0 => idtac | Zpos _ => idtac | Zneg _ => idtac end.
Ltac eval_closed :=
  repeat match goal with
  | |- context [?a + ?b] =>
      is_numeral a; is_numeral b;
      let v := eval vm_compute in (a + b) in change (a + b) with v
  | |- context [?a mod ?b] =>
      is_numeral a; is_numeral b;
      let v := eval vm_compute in (a mod b) in change (a mod b) with v
  | |- context [?a ^ ?b] =>
      is_numeral a; is_numeral b;
      let v := eval vm_compute in (a ^ b) in change (a ^ b) with v
  | |- context [?a <=? ?b] =>
      is_numeral a; is_numeral b;
      let v := eval vm_compute in (a <=? b) in change (a <=? b) with v
  | |- context [?a =? ?b] =>
      is_numeral a; is_numeral b;
      let v := eval vm_compute in (a =? b) in change (a =? b) with v
  end.


(** Split on the exponent of a magnitude; the cases that the bounds on the
    magnitude exclude are closed. *)
Ltac exponent_cases mag :=
  let He := fresh "He" in
  let Hpow := fresh "Hpow" in
  let e := fresh "e" in
  let Hc := fresh "Hc" in
  destruct (exponent_bounds mag ltac:(lia)) as [He Hpow];
  generalize dependent (exponent_of mag); intros e He Hpow;
  assert (Hc : e = 0 \/ e = 1 \/ e = 2 \/ e = 3 \/ e = 4 \/ e = 5 \/ e = 6
               \/ e = 7 \/ e = 8 \/ e = 9) by lia;
  clear He;
  repeat (destruct Hc as [->|Hc] || subst e);
  try lia; unfold bad, decoded; eval_closed;
  cbn [andb orb negb].


(** Decide the comparisons left in the goal. *)
Ltac split_comparisons :=
  repeat match goal with
  | |- context [?a <=? ?b] => destruct (Z.leb_spec a b)
  | |- context [?a <? ?b] => destruct (Z.ltb_spec a b)
  end; cbn [andb orb negb].


(** X8.  Every sample of magnitude 2048 to 8159 is companded to a byte on
    which the expansion raises: on that band decode(encode(x)) returns
    nothing. *)
Theorem roundtrip_raises_in_band x :
  fits_int16 x = true -> 2048 <= Z.abs x <= 8159 ->
  roundtrip x = Raise RangeError.
Proof.
  intros Hx Hband. rewrite roundtrip_formula by assumption. cbv zeta.
  replace (Z.min (Z.abs x) 32635) with (Z.abs x) by lia.
  exponent_cases (Z.abs x); split_comparisons;
    reflexivity || (exfalso; div_lia).
Qed.

Lemma roundtrip_raises_in_band_witness :
  fits_int16 (-5000) = true /\ roundtrip (-5000) = Raise RangeError.
Proof.
  split; [reflexivity|].
  apply (roundtrip_raises_in_band (-5000)); [reflexivity | cbn; lia].
Defined.

(** X9.  Every sample of magnitude 8160 or more, of either sign, comes
    back as a small negative value, between -1920 and -448. *)
Theorem roundtrip_loud_is_negative x :
  fits_int16 x = true -> 8160 <= Z.abs x ->
  exists y, roundtrip x = Ok y /\ -1920 <= y <= -448.
Proof.
  intros Hx Hloud. rewrite roundtrip_formula by assumption. cbv zeta.
  assert (Hmag : 8160 <= Z.min (Z.abs x) 32635 <= 32635) by lia.
  revert Hmag. generalize (Z.min (Z.abs x) 32635). intros mag Hmag.
  exponent_cases mag; rewrite ?orb_true_r; eexists; (split; [reflexivity|]);
    div_lia.
Qed.

Lemma roundtrip_loud_is_negative_witness :
  exists y, roundtrip 20000 = Ok y /\ -1920 <= y <= -448.
Proof.
  apply (roundtrip_loud_is_negative 20000); [reflexivity | cbn; lia].
Defined.

(** X10.  decode(encode(x)) is never within 56 of [x]: whenever it returns
    a sample, that sample differs from [x] by at least 57. *)
Theorem roundtrip_never_close x y :
  fits_int16 x = true -> roundtrip x = Ok y -> 57 <= Z.abs (y - x).
Proof.
  intros Hx. rewrite roundtrip_formula by assumption. cbv zeta.
  unfold fits_int16 in Hx.
  apply andb_true_iff in Hx as [Hlo Hhi]. apply Z.leb_le in Hlo, Hhi.
  assert (Hmag : Z.min (Z.abs x) 32635 = Z.abs x /\ Z.abs x <= 32635
                 \/ Z.min (Z.abs x) 32635 = 32635 /\ 32635 <= Z.abs x) by lia.
  revert Hmag. generalize (Z.min (Z.abs x) 32635). intros mag Hmag.
  exponent_cases mag; split_comparisons; try discriminate;
    intros [= <-]; div_lia.
Qed.

Lemma roundtrip_never_close_witness :
  fits_int16 7 = true /\ roundtrip 7 = Ok 64 /\ 57 <= Z.abs (64 - 7).
Proof.
  split; [reflexivity|]. split; [reflexivity|].
  apply (roundtrip_never_close 7 64); reflexivity.
Defined.

(** X11.  A sample of magnitude at most 2047 comes back with its sign (zero
    as a positive value) and about 14 to 18 times as large. *)
Theorem roundtrip_quiet x :
  Z.abs x <= 2047 ->
  exists y, roundtrip x = Ok y
            /\ (0 <= x -> 0 < y) /\ (x < 0 -> y < 0)
            /\ 14 * Z.abs x - 34 <= Z.abs y <= 16 * Z.abs x + 2048.
Proof.
  intros Hq.
  assert (Hx : fits_int16 x = true).
  { unfold fits_int16. apply andb_true_iff. split; apply Z.leb_le; lia. }
  rewrite roundtrip_formula by assumption. cbv zeta.
  replace (Z.min (Z.abs x) 32635) with (Z.abs x) by lia.
  exponent_cases (Z.abs x); split_comparisons; try (exfalso; div_lia);
    eexists; (split; [reflexivity|]); div_lia.
Qed.

Lemma roundtrip_quiet_witness :
  exists y, roundtrip (-100) = Ok y
            /\ (0 <= -100 -> 0 < y) /\ (-100 < 0 -> y < 0)
            /\ 14 * Z.abs (-100) - 34 <= Z.abs y <= 16 * Z.abs (-100) + 2048.
Proof. apply (roundtrip_quiet (-100)). cbn. lia. Defined.

End CodecMoreFacts.

(** * Further properties of the handlers *)

Section HandlerMoreFacts.
Import JS Str Server Scenario.

(** X12.  A rejected speech request is swallowed: [transcribeAudio] returns
    the empty string and leaves the tables and the sockets as they are; it
    asks at most once, and not at all without a speech key. *)
Theorem transcribeAudio_swallows_failure cfg (o : answers) w buffer e :
  o _ (SpeechRecognize buffer) = Raise e ->
  run o w (transcribeAudio cfg buffer)
  = Outcome w (Ok ""%string)
      (if is_empty (GOOGLE_SPEECH_API_KEY cfg) then [] else [Speech buffer]).
Proof.
  intros He. unfold transcribeAudio.
  destruct (is_empty (GOOGLE_SPEECH_API_KEY cfg)); [reflexivity|].
  cbn. rewrite He. reflexivity.
Qed.

Lemma transcribeAudio_swallows_failure_witness :
  run all_down (state initial) (transcribeAudio env "AAAA")
  = Outcome (state initial) (Ok ""%string) [Speech "AAAA"].
Proof.
  apply (transcribeAudio_swallows_failure env all_down (state initial)
           "AAAA" HttpError).
  reflexivity.
Defined.

(** X13.  [generateLLMReply] leaves the connection table, the listeners and
    the sockets alone, and the history of every other call as it is. *)
Theorem generateLLMReply_isolated cfg o w transcript callSid :
  let w' := final (run o w (generateLLMReply cfg transcript callSid)) in
  connections w' = connections w /\ listeners w' = listeners w
  /\ sent w' = sent w /\ closed w' = closed w
  /\ forall c, c <> callSid ->
       conversationHistory w' !! c = conversationHistory w !! c.
Proof.
  unfold generateLLMReply. destruct (blank transcript); [cbn; auto|].
  cbn.
  destruct (conversationHistory w !! callSid) as [turns|] eqn:Hturns;
    run_with Hturns;
    match goal with |- context [o ?R ?c] => destruct (o R c) as [[c'|]|e] end;
    run_with Hturns; repeat split; intros c Hc;
    rewrite ?lookup_insert_ne by congruence; reflexivity.
Qed.

Lemma generateLLMReply_isolated_witness :
  let w := final (run (replied "Sure.") (state initial)
                      (generateLLMReply env "book a ride" "CA1")) in
  conversationHistory
    (final (run (replied "Hello.") w (generateLLMReply env "hi" "CA2")))
    !! "CA1"%string
  = conversationHistory w !! "CA1"%string.
Proof.
  cbn zeta.
  destruct (generateLLMReply_isolated env (replied "Hello.")
              (final (run (replied "Sure.") (state initial)
                          (generateLLMReply env "book a ride" "CA1")))
              "hi" "CA2") as (_ & _ & _ & _ & H).
  apply H. discriminate.
Defined.







(** X16.  A transcript made of white space only is not answered by the
    chat service, yet the cycle goes on: with no request to the chat service
    or to Polly, a [clear] and a [media] event with an empty payload are
    sent, and the tables stay as they are. *)
Theorem handleMediaMessage_blank_transcript cfg o w callSid ws payload t :
  is_empty payload = false ->
  connections w !! callSid = Some ws ->
  returned (run o w (transcribeAudio cfg payload)) = Ok t ->
  is_empty t = false -> blank t = true ->
  let r := run o w (handleMediaMessage cfg callSid (Some payload)) in
  returned r = Ok tt
  /\ sent (final r) = sent w ++ [(ws, clear_event); (ws, media_event "")]
  /\ conversationHistory (final r) = conversationHistory w
  /\ List.filter (fun q => is_chat q || is_polly q) (requests r) = [].
Proof.
  intros Hpayload Hws Ht Hne Hblank.
  unfold handleMediaMessage. rewrite Hpayload.
  cbn -[transcribeAudio generateLLMReply synthesizeSpeech].
  rewrite Hws, run_bind.
  destruct (run_transcribeAudio cfg o w payload) as [t' Hrt].
  rewrite Hrt in Ht. cbn in Ht. injection Ht as ->. rewrite Hrt.
  cbn -[transcribeAudio generateLLMReply synthesizeSpeech].
  rewrite Hne. unfold generateLLMReply. rewrite Hblank.
  cbn. rewrite <- app_assoc.
  destruct (is_empty (GOOGLE_SPEECH_API_KEY cfg)); cbn; auto.
Qed.

Lemma handleMediaMessage_blank_transcript_witness :
  let w := state (step env initial (Connection 1 (Some "CA1"%string))) in
  sent (final (run (heard "  ") w
                   (handleMediaMessage env "CA1" (Some "AAAA"%string))))
  = [(1, clear_event); (1, media_event "")].
Proof.
  cbn zeta.
  exact (proj1 (proj2
    (handleMediaMessage_blank_transcript env (heard "  ")
       (state (step env initial (Connection 1 (Some "CA1"%string))))
       "CA1" 1 "AAAA" "  " eq_refl eq_refl eq_refl eq_refl eq_refl))).
Defined.





End HandlerMoreFacts.

(** * Further properties of the event loop *)

Section LoopMoreFacts.
Import JS Str Server Scenario Effects.

Lemma server_eta s : Server (state s) (pending s) (unhandled s) = s.
Proof. destruct s; reflexivity. Qed.

(** X19.  A message that does not parse, or whose event is neither [media]
    nor [closed], changes nothing: no table entry, no send, no request, no
    rejection. *)
Theorem other_messages_ignored cfg s ws data :
  match data with
  | ParseError => True
  | JNull => False
  | JObject ev _ => ev <> Some "media"%string /\ ev <> Some "closed"%string
  end ->
  step cfg s (Message ws data) = s.
Proof.
  intros Hdata. cbn [step].
  destruct (listeners (state s) !! ws) as [callSid|]; [|reflexivity].
  unfold launch, on_message.
  destruct data as [| |ev payload]; [apply server_eta|destruct Hdata|].
  destruct Hdata as [Hm Hc].
  rewrite !bool_decide_eq_false_2 by assumption. apply server_eta.
Qed.

Lemma other_messages_ignored_witness :
  let s := step env initial (Connection 1 (Some "CA1"%string)) in
  step env s (Message 1 (JObject (Some "start"%string) None)) = s.
Proof.
  apply (other_messages_ignored env
           (step env initial (Connection 1 (Some "CA1"%string))) 1
           (JObject (Some "start"%string) None)).
  split; discriminate.
Defined.

(** X20.  A message whose JSON text is [null] is not dropped: reading its
    [event] raises a [TypeError] that leaves the handler as an unhandled
    rejection; tables, sockets and pending pipelines stay as they are. *)
Theorem null_message_unhandled cfg s ws callSid :
  listeners (state s) !! ws = Some callSid ->
  step cfg s (Message ws JNull)
  = Server (state s) (pending s) (unhandled s ++ [TypeError]).
Proof. intros Hws. cbn [step]. rewrite Hws. reflexivity. Qed.

Lemma null_message_unhandled_witness :
  unhandled (step env (step env initial (Connection 1 (Some "CA1"%string)))
                  (Message 1 JNull)) = [TypeError].
Proof.
  rewrite (null_message_unhandled env
             (step env initial (Connection 1 (Some "CA1"%string))) 1 "CA1"
             eq_refl).
  reflexivity.
Defined.

(** X21.  Closing is idempotent: a second [close] event on a socket changes
    nothing more. *)
Theorem close_idempotent cfg s ws :
  step cfg (step cfg s (Close ws)) (Close ws) = step cfg s (Close ws).
Proof.
  cbn [step].
  destruct (listeners (state s) !! ws) as [callSid|] eqn:Hws;
    [|now rewrite Hws].
  cbn. rewrite Hws. unfold call_sync, on_close. cbn.
  now rewrite delete_delete_eq.
Qed.



(** *** What pipelines keep *)

Section Keeping.
Variable rel : world -> world -> Prop.
Hypothesis rel_refl : forall w, rel w w.
Hypothesis rel_trans : forall w1 w2 w3, rel w1 w2 -> rel w2 w3 -> rel w1 w3.

Lemma keeps_bind {A B} (p : proc A) (f : A -> proc B) : forall w,
  keeps rel p w -> (forall a w', keeps rel (f a) w') ->
  keeps rel (bind p f) w.
Proof.
  induction p as [a|e|R o k IH|R c k IH]; cbn; intros w Hp Hf; auto.
  destruct Hp as [Hstep Hk]. split; auto.
Qed.

Lemma keeps_try_catch {A} (p : proc A) (h : error -> proc A) : forall w,
  keeps rel p w -> (forall e w', keeps rel (h e) w') ->
  keeps rel (try_catch p h) w.
Proof.
  induction p as [a|e|R o k IH|R c k IH]; cbn; intros w Hp Hh; auto.
  destruct Hp as [Hstep Hk]. split; auto.
Qed.

Lemma keeps_await {R} (c : call R) w : keeps rel (await c) w.
Proof. intros [v|e] w'; exact I. Qed.

Lemma keeps_lift {A} (r : result A) w : keeps rel (lift r) w.
Proof. destruct r; exact I. Qed.

Lemma keeps_is_later {A} (p : proc A) : forall w,
  keeps rel p w -> keeps_later rel p w.
Proof.
  induction p as [a|e|R o k IH|R c k IH]; cbn; intros w Hp; auto.
  destruct Hp as [_ Hk]. auto.
Qed.

Lemma exec_keeps {A} (p : proc A) : forall w,
  keeps rel p w -> rel w (exec w p).1.
Proof.
  induction p as [a|e|R o k IH|R c k IH]; cbn; intros w Hp; auto.
  destruct Hp as [Hstep Hk]. specialize (IH _ _ Hk).
  destruct (perform w o) as [w' r]. cbn in *. eauto.
Qed.

Lemma exec_keeps_later {A} (p : proc A) : forall w,
  keeps_later rel p w ->
  match (exec w p).2 with
  | Suspended c k => forall r w', keeps rel (k r) w'
  | _ => True
  end.
Proof.
  induction p as [a|e|R o k IH|R c k IH]; cbn; intros w Hp; auto.
  specialize (IH _ _ Hp). destruct (perform w o) as [w' r]. exact IH.
Qed.

Lemma launch_kept callSid s p :
  Forall (kept_task rel) (pending s) -> keeps_later rel p (state s) ->
  Forall (kept_task rel) (pending (launch callSid s p)).
Proof.
  intros Hpending Hp. unfold launch.
  pose proof (exec_keeps_later p (state s) Hp) as Hk.
  destruct (exec (state s) p) as [w [a|e|R c k]]; cbn in *; auto.
  apply Forall_app. split; [assumption|]. repeat constructor. exact Hk.
Qed.

Lemma launch_keeps callSid s p :
  keeps rel p (state s) -> rel (state s) (state (launch callSid s p)).
Proof.
  intros Hp. unfold launch. pose proof (exec_keeps p (state s) Hp) as Hw.
  destruct (exec (state s) p) as [w [a|e|R c k]]; exact Hw.
Qed.

(** Settling a request of a kept pipeline is a step that [rel] relates, and
    leaves kept pipelines. *)
Lemma settle_keeps cfg s i o :
  Forall (kept_task rel) (pending s) ->
  rel (state s) (state (step cfg s (Settle i o)))
  /\ Forall (kept_task rel) (pending (step cfg s (Settle i o))).
Proof.
  intros Hpending. cbn [step].
  destruct (pending s !! i) as [[callSid R c k]|] eqn:Hi; [|auto].
  pose proof (Forall_lookup_1 _ _ _ _ Hpending Hi) as Hk. cbn in Hk.
  split.
  - apply (launch_keeps callSid
             (Server (state s) (delete i (pending s)) (unhandled s))).
    apply Hk.
  - apply launch_kept; cbn; [now apply Forall_delete|].
    apply keeps_is_later, Hk.
Qed.

End Keeping.

Lemma grows_refl w : grows w w.
Proof. intros c. reflexivity. Qed.

Lemma grows_trans w1 w2 w3 : grows w1 w2 -> grows w2 w3 -> grows w1 w3.
Proof. intros H1 H2 c. etransitivity; [apply H1|apply H2]. Qed.

Lemma same_sockets_refl w : same_sockets w w.
Proof. repeat split. Qed.

Lemma same_sockets_trans w1 w2 w3 :
  same_sockets w1 w2 -> same_sockets w2 w3 -> same_sockets w1 w3.
Proof. intros (? & ? & ?) (? & ? & ?). repeat split; congruence. Qed.

(** Steps that do not write the history table. *)
Lemma grows_same_history w w' :
  conversationHistory w' = conversationHistory w -> grows w w'.
Proof. intros H c. unfold history. now rewrite H. Qed.

Lemma modest_refl w : modest w w.
Proof. split; [apply grows_refl|apply same_sockets_refl]. Qed.

Lemma modest_trans w1 w2 w3 : modest w1 w2 -> modest w2 w3 -> modest w1 w3.
Proof.
  intros [? ?] [? ?].
  split; [eapply grows_trans|eapply same_sockets_trans]; eauto.
Qed.

Lemma keeps_transcribeAudio cfg buffer w :
  keeps modest (transcribeAudio cfg buffer) w.
Proof.
  unfold transcribeAudio. destruct (is_empty _); [exact I|].
  apply keeps_try_catch; [|intros; exact I].
  apply keeps_bind; [apply keeps_await|].
  intros [|[[|[t|] alts]|] results] w'; exact I.
Qed.

Lemma modest_push w callSid turns m :
  conversationHistory w !! callSid = Some turns ->
  modest w (World (connections w)
                  (<[callSid := turns ++ [m]]> (conversationHistory w))
                  (listeners w) (sent w) (closed w)).
Proof.
  intros Hturns. split; [|repeat split]. intros c. unfold history. cbn.
  destruct (decide (c = callSid)) as [->|Hne].
  - rewrite lookup_insert_eq, Hturns. cbn. now apply prefix_app_r.
  - now rewrite lookup_insert_ne by congruence.
Qed.

Lemma keeps_history_push callSid m w :
  keeps modest (history_push callSid m) w.
Proof.
  cbn. split; [apply modest_refl|].
  destruct (conversationHistory w !! callSid) as [turns|] eqn:Hturns; cbn;
    [|exact I].
  split; [|exact I]. now apply modest_push.
Qed.

Lemma keeps_generateLLMReply cfg transcript callSid w :
  keeps modest (generateLLMReply cfg transcript callSid) w.
Proof.
  unfold generateLLMReply. destruct (blank transcript); [exact I|].
  cbn. split; [apply modest_refl|].
  assert (Htail : forall turns w',
    keeps modest
      (try_catch
         (bind (await (ChatCompletions (model cfg)
                  ([{| role := "system"; content := systemPrompt cfg |}]
                     ++ turns
                     ++ [{| role := "user"; content := transcript |}])))
            (fun response =>
               bind (if response is Some c then Ret (trim c)
                     else Throw TypeError)
                 (fun replyContent =>
                    bind (history_push callSid
                            {| role := "user"; content := transcript |})
                      (fun _ =>
                         bind (history_push callSid
                                 {| role := "assistant";
                                    content := replyContent |})
                           (fun _ => Ret replyContent)))))
         (fun _ => Ret ("You said: " +:+ transcript))) w').
  { intros turns w'. apply keeps_try_catch; [|intros; exact I].
    apply keeps_bind; [apply keeps_await|]. intros response w1.
    apply keeps_bind; [destruct response; exact I|]. intros reply w2.
    apply keeps_bind; [apply keeps_history_push|]. intros _ w3.
    apply keeps_bind; [apply keeps_history_push|]. intros _ w4. exact I. }
  destruct (conversationHistory w !! callSid) as [turns|] eqn:Hturns;
    run_with Hturns.
  - split; [apply modest_refl|]. exact (Htail turns w).
  - split.
    + split; [|repeat split]. intros c. unfold history. cbn.
      destruct (decide (c = callSid)) as [->|Hne].
      * now rewrite lookup_insert_eq, Hturns.
      * now rewrite lookup_insert_ne by congruence.
    + split; [apply modest_refl|]. exact (Htail [] w).
Qed.

Lemma keeps_synthesizeSpeech text w : keeps modest (synthesizeSpeech text) w.
Proof.
  unfold synthesizeSpeech. destruct (is_empty text); [exact I|].
  apply keeps_bind; [apply keeps_await|]. intros; exact I.
Qed.

(** The pipeline after the socket has been looked up. *)
Lemma keeps_reply_cycle cfg callSid ws payload w :
  keeps modest
    (bind (transcribeAudio cfg payload)
       (fun transcript =>
          if is_empty transcript then Ret tt
          else
            bind (generateLLMReply cfg transcript callSid)
              (fun reply =>
                 bind (synthesizeSpeech reply)
                   (fun speechAudio =>
                      bind (lift (Codec.pcmToMuLaw speechAudio))
                        (fun muLawAudio =>
                           bind (do (WsSend ws clear_event))
                             (fun _ =>
                                do (WsSend ws
                                      (media_event (base64 muLawAudio))))))))) w.
Proof.
  apply keeps_bind; [apply keeps_transcribeAudio|]. intros transcript w1.
  destruct (is_empty transcript); [exact I|].
  apply keeps_bind; [apply keeps_generateLLMReply|]. intros reply w2.
  apply keeps_bind; [apply keeps_synthesizeSpeech|]. intros audio w3.
  apply keeps_bind; [apply keeps_lift|]. intros muLaw w4.
  cbn. split; [|split; [|exact I]];
    (split; [apply grows_same_history; reflexivity | repeat split]).
Qed.

Lemma keeps_later_on_message cfg callSid ws data w :
  keeps_later modest (on_message cfg callSid ws data) w.
Proof.
  destruct data as [| |ev payload]; cbn -[handleMediaMessage]; auto.
  destruct (bool_decide (ev = Some "media"%string)).
  - unfold handleMediaMessage.
    destruct payload as [payload|]; [|exact I].
    destruct (is_empty payload); [exact I|].
    cbn -[transcribeAudio generateLLMReply synthesizeSpeech Codec.pcmToMuLaw].
    destruct (connections w !! callSid) as [sock|]; [|exact I].
    apply keeps_is_later, keeps_reply_cycle.
  - destruct (bool_decide (ev = Some "closed"%string)); cbn; exact I.
Qed.

Lemma keeps_grows_on_message cfg callSid ws data w :
  keeps grows (on_message cfg callSid ws data) w.
Proof.
  assert (Hweak : forall A (p : proc A) w', keeps modest p w' ->
                    keeps grows p w').
  { intros A p. induction p as [a|e|R o k IH|R c k IH]; cbn; intros w' Hp;
      auto.
    destruct Hp as [[Hg _] Hk]. auto. }
  destruct data as [| |ev payload]; cbn -[handleMediaMessage]; auto.
  destruct (bool_decide (ev = Some "media"%string)).
  - unfold handleMediaMessage.
    destruct payload as [payload|]; [|exact I].
    destruct (is_empty payload); [exact I|].
    cbn -[transcribeAudio generateLLMReply synthesizeSpeech Codec.pcmToMuLaw].
    split; [apply grows_refl|].
    destruct (connections w !! callSid) as [sock|]; [|exact I].
    apply Hweak, keeps_reply_cycle.
  - destruct (bool_decide (ev = Some "closed"%string)); cbn; auto.
    repeat split; now apply grows_same_history.
Qed.

(** Every step extends the recorded turns, and leaves pipelines that will
    only extend them and keep the sockets. *)
Lemma step_grows cfg s e :
  Forall (kept_task modest) (pending s) ->
  grows (state s) (state (step cfg s e))
  /\ Forall (kept_task modest) (pending (step cfg s e)).
Proof.
  intros Hpending. destruct e as [ws callSid|ws data|ws|i o].
  - cbn [step]. unfold call_sync. cbn [pending]. split; [|assumption].
    cbn [state]. apply grows_same_history.
    destruct callSid as [callSid|]; cbn; [|reflexivity].
    destruct (is_empty callSid); reflexivity.
  - cbn [step]. destruct (listeners (state s) !! ws) as [callSid|];
      [|split; [apply grows_refl|assumption]].
    split.
    + apply (launch_keeps grows grows_refl grows_trans).
      apply keeps_grows_on_message.
    + apply launch_kept; [assumption|apply keeps_later_on_message].
  - cbn [step]. destruct (listeners (state s) !! ws) as [callSid|];
      [|split; [apply grows_refl|assumption]].
    split; [|assumption]. now apply grows_same_history.
  - destruct (settle_keeps modest modest_refl modest_trans cfg s i o Hpending)
      as [[Hg _] Hk].
    split; assumption.
Qed.

Lemma steps_grow cfg es : forall s,
  Forall (kept_task modest) (pending s) ->
  grows (state s) (state (steps cfg s es))
  /\ Forall (kept_task modest) (pending (steps cfg s es)).
Proof.
  induction es as [|e es IH]; intros s Hs; cbn.
  - split; [apply grows_refl|assumption].
  - destruct (step_grows cfg s e Hs) as [Hg Hk].
    destruct (IH _ Hk) as [Hg' Hk'].
    split; [eapply grows_trans; eassumption|assumption].
Qed.

(** X23.  The history of a call is append-only: whatever arrives and however
    the requests are answered afterwards, the turns recorded for a call at
    any moment are a prefix of the turns recorded for it later. *)
Theorem history_append_only cfg es1 es2 callSid :
  history (state (steps cfg initial es1)) callSid
  `prefix_of` history (state (steps cfg initial (es1 ++ es2))) callSid.
Proof.
  unfold steps. rewrite fold_left_app.
  destruct (steps_grow cfg es1 initial) as [_ Hk]; [constructor|].
  destruct (steps_grow cfg es2 _ Hk) as [Hg _]. apply Hg.
Qed.

(** X24.  A pipeline that is resumed never touches the connection table or
    the listeners and closes no socket: after any sequence of events,
    settling a request leaves all three as they are. *)
Theorem settle_keeps_sockets cfg es i o :
  let s := steps cfg initial es in
  same_sockets (state s) (state (step cfg s (Settle i o))).
Proof.
  cbn zeta.
  destruct (steps_grow cfg es initial) as [_ Hk]; [constructor|].
  destruct (settle_keeps modest modest_refl modest_trans cfg _ i o Hk)
    as [[_ Hsame] _].
  exact Hsame.
Qed.





End LoopMoreFacts.

(** * Properties of the call-setup responder *)

Section VoiceFacts.
Import JS Str Voice.

Lemma list_ascii_of_string_app s1 s2 :
  list_ascii_of_string (s1 +:+ s2)
  = list_ascii_of_string s1 ++ list_ascii_of_string s2.
Proof.
  induction s1 as [|a s1 IH]; [reflexivity|].
  change (String a s1 +:+ s2) with (String a (s1 +:+ s2)).
  cbn [list_ascii_of_string]. rewrite IH. reflexivity.
Qed.

Lemma strip_slash_app base : strip_slash (base +:+ "/") = base.
Proof.
  unfold strip_slash. rewrite list_ascii_of_string_app, rev_app_distr.
  cbn. rewrite rev_involutive. apply string_of_list_ascii_of_string.
Qed.

Lemma length_append s1 s2 :
  String.length (s1 +:+ s2) = (String.length s1 + String.length s2)%nat.
Proof.
  induction s1 as [|a s1 IH]; [reflexivity|].
  change (String a s1 +:+ s2) with (String a (s1 +:+ s2)).
  cbn [String.length]. rewrite IH. reflexivity.
Qed.

(** X26.  One slash at the end of [BASE_URL] does not change the answer of
    [/voice] when no token is configured: the stream URL is built from the
    base without it.  But the URL checked for the signature is built from
    [BASE_URL] as it is, and differs. *)
Theorem voice_trailing_slash token polly base validate path CallSid :
  strip_slash base = base ->
  let st := {| TWILIO_AUTH_TOKEN := token; BASE_URL := base;
               AWS_POLLY_VOICE := polly |} in
  let st' := {| TWILIO_AUTH_TOKEN := token; BASE_URL := base +:+ "/";
                AWS_POLLY_VOICE := polly |} in
  stream_url st' CallSid = stream_url st CallSid
  /\ stream_url st CallSid
     = base +:+ "/stream?callSid=" +:+ default "undefined"%string CallSid
  /\ (is_empty token = true ->
      voice st' validate path CallSid = voice st validate path CallSid)
  /\ urlToCheck st' path <> urlToCheck st path.
Proof.
  intros Hbase st st'. unfold voice, urlToCheck, stream_url, st, st'.
  cbn [BASE_URL TWILIO_AUTH_TOKEN AWS_POLLY_VOICE].
  rewrite strip_slash_app, Hbase. repeat split.
  - intros ->. reflexivity.
  - intros Heq. apply (f_equal String.length) in Heq.
    rewrite !length_append in Heq. cbn in Heq. lia.
Qed.

Lemma voice_trailing_slash_witness :
  stream_url {| TWILIO_AUTH_TOKEN := ""; BASE_URL := "https://gsm.example/";
                AWS_POLLY_VOICE := "Joanna" |} (Some "CA1"%string)
  = "https://gsm.example/stream?callSid=CA1"%string.
Proof.
  destruct (voice_trailing_slash "" "Joanna" "https://gsm.example"
              (fun _ => Ok true) "/voice" (Some "CA1"%string) eq_refl)
    as (H1 & H2 & _).
  exact (eq_trans H1 H2).
Defined.

End VoiceFacts.
